(** * Canonical JSON encoding and signable envelopes of securesystemslib

    A shallow embedding of the last section of [formats.py]:
    [make_signable], [_canonical_string_encoder], [_encode_canonical] and
    [encode_canonical], read with the semantics of Python 3.

    Python values are an inductive type, so a value is a finite tree: a
    cyclic object graph has no counterpart here.  A [dict] is the list of
    its items in the order [six.iteritems] yields them (the order of
    insertion); its keys are pairwise distinct in Python, which none of
    the results below has to assume.  Strings, integers and [None] stand
    for the hashable objects a key can be.

    The encoder writes through a callable, so it lives in a state and
    exception monad [M]: what the callable did before an exception was
    raised stays done. *)

From Stdlib Require Import List ZArith NArith Ascii String Bool Lia.
From Stdlib Require Import Permutation Sorted DecimalString.
From Stdlib Require DecimalFacts DecimalPos.
Import ListNotations.

Set Implicit Arguments.

(* ================================================================== *)
(** ** Text *)

(** A Python 3 [str] is a sequence of Unicode code points. *)
Definition pystr := list N.

(** A string literal of the source (all of them are ASCII). *)
Definition lit (s : string) : pystr :=
  map N_of_ascii (list_ascii_of_string s).

Definition quote_char : N := 34.      (* the double quote *)
Definition backslash_char : N := 92.  (* the backslash *)

(** [a < b] on [str]: lexicographic on the code points, a proper prefix
    being smaller. *)
Fixpoint str_ltb (a b : pystr) : bool :=
  match a, b with
  | _, [] => false
  | [], _ :: _ => true
  | x :: a', y :: b' =>
      if (x <? y)%N then true
      else if (y <? x)%N then false
      else str_ltb a' b'
  end.

(** [''.join(fragments)]. *)
Definition join_empty (fragments : list pystr) : pystr :=
  List.concat fragments.

(** [str(n)] for an [int]: the decimal numeral of the library.  The
    interpreters the package is declared for (up to 3.5) put no limit on
    its length. *)
Definition str_int (n : Z) : pystr :=
  lit (NilZero.string_of_int (Z.to_int n)).

(* ================================================================== *)
(** ** Values *)

(** A [float] is never inspected by the code; its value is carried along
    only to tell floats apart. *)
Inductive pyfloat : Type :=
| FFinite (mantissa exponent : Z)
| FInfinite (negative : bool)
| FNaN.

(** The hashable objects used as dictionary keys. *)
Inductive pykey : Type :=
| KStr (s : pystr)
| KInt (n : Z)
| KNone.

#[warnings="-register-all"] Inductive pyval : Type :=
| PStr (s : pystr)
| PBool (b : bool)
| PNone
| PInt (n : Z)
| PFloat (f : pyfloat)
| PList (items : list pyval)
| PTuple (items : list pyval)
| PDict (items : list (pykey * pyval))
| PObject (class_name : string).      (* anything else: bytes, set, ... *)

(** [==] on keys, as used by the dictionary lookup. *)
Definition key_eqb (a b : pykey) : bool :=
  match a, b with
  | KStr x, KStr y => if list_eq_dec N.eq_dec x y then true else false
  | KInt x, KInt y => (x =? y)%Z
  | KNone, KNone => true
  | _, _ => false
  end.

(** [key in d]. *)
Definition dict_contains (key : pykey) (d : list (pykey * pyval)) : bool :=
  existsb (fun kv => key_eqb key (fst kv)) d.

(* ================================================================== *)
(** ** Exceptions *)

(** The text of an exception message.  [repr] is left symbolic. *)
Inductive text_part : Type :=
| Lit (s : string)
| Repr (o : pyval).

Definition text := list text_part.

Inductive exn : Type :=
| TypeError (message : text)
| FormatError (message : text)        (* securesystemslib.exceptions *)
| OtherError (class_name : string) (message : text).

(** [str(e)]. *)
Definition str_exn (e : exn) : text :=
  match e with
  | TypeError m | FormatError m | OtherError _ m => m
  end.

Inductive outcome (A : Type) : Type :=
| Return (a : A)
| Raise (e : exn).

Arguments Return {A} a.
Arguments Raise {A} e.

Definition obind {A B} (c : outcome A) (k : A -> outcome B) : outcome B :=
  match c with
  | Return a => k a
  | Raise e => Raise e
  end.

(* ================================================================== *)
(** ** The monad of the encoder *)

(** A computation over a world [W] (whatever the output callable
    touches).  The world reached when an exception is raised is kept. *)
Definition M (W A : Type) : Type := W -> W * outcome A.

Definition ret {W A} (a : A) : M W A := fun w => (w, Return a).

Definition raise {W A} (e : exn) : M W A := fun w => (w, Raise e).

Definition bind {W A B} (c : M W A) (k : A -> M W B) : M W B :=
  fun w =>
    match c w with
    | (w', Return a) => k a w'
    | (w', Raise e) => (w', Raise e)
    end.

(** A computation without effect on the world. *)
Definition lift {W A} (c : outcome A) : M W A := fun w => (w, c).

Declare Scope py_scope.
Delimit Scope py_scope with py.
Notation "x <- c1 ;; c2" := (bind c1 (fun x => c2))
  (at level 61, c1 at next level, right associativity) : py_scope.
Notation "c1 ;; c2" := (bind c1 (fun _ => c2))
  (at level 61, right associativity) : py_scope.
Open Scope py_scope.

(** [for x in xs: body(x)]. *)
Fixpoint for_each {W A} (xs : list A) (body : A -> M W unit) : M W unit :=
  match xs with
  | [] => ret tt
  | x :: rest => body x ;; for_each rest body
  end.

(** [try: c  except (TypeError, FormatError) as e: handler(e)]. *)
Definition try_except {W A} (c : M W A) (handler : exn -> M W A) : M W A :=
  fun w =>
    match c w with
    | (w', Return a) => (w', Return a)
    | (w', Raise (TypeError m)) => handler (TypeError m) w'
    | (w', Raise (FormatError m)) => handler (FormatError m) w'
    | (w', Raise (OtherError c m)) => (w', Raise (OtherError c m))
    end.

(* ================================================================== *)
(** ** Library functions the source calls *)

(** *** [re.sub] for a pattern that is one group around a character
    class: the pattern of the source is the class of the double quote and
    the backslash, in group 1 *)

Inductive repl_item : Type :=
| RChar (c : N)      (* a literal character *)
| RGroup1.           (* a reference to group 1 *)

Definition expand (template : list repl_item) (group1 : pystr) : pystr :=
  flat_map (fun i => match i with RChar c => [c] | RGroup1 => group1 end)
           template.

Fixpoint sub_class (class : list N) (template : list repl_item)
    (s : pystr) : pystr :=
  match s with
  | [] => []
  | c :: rest =>
      (if existsb (N.eqb c) class then expand template [c] else [c])
        ++ sub_class class template rest
  end.

(** [re.sub] raises [TypeError] when its subject is not a string. *)
Definition re_sub (class : list N) (template : list repl_item)
    (string : pykey) : outcome pystr :=
  match string with
  | KStr s => Return (sub_class class template s)
  | _ => Raise (TypeError [Lit "expected string or bytes-like object"])
  end.

(** *** [sorted] on the items of a dictionary *)

(** [a < b] on keys; two keys of different types, or two [None], do not
    compare. *)
Definition key_lt (a b : pykey) : outcome bool :=
  match a, b with
  | KStr x, KStr y => Return (str_ltb x y)
  | KInt x, KInt y => Return (x <? y)%Z
  | _, _ => Raise (TypeError [Lit "'<' not supported between instances"])
  end.

(** [sorted] compares the items, pairs [(key, value)], with [<].  The keys
    of a dictionary are pairwise distinct, so each comparison is settled
    by the keys and the values are never compared: the sort is generic in
    what is stored with the key.  Insertion sort stands for the
    interpreter's algorithm; both are stable and raise as soon as two
    keys do not compare. *)
Section Sorted.
Variable V : Type.

Fixpoint insert_item (x : pykey * V) (l : list (pykey * V))
    : outcome (list (pykey * V)) :=
  match l with
  | [] => Return [x]
  | y :: rest =>
      obind (key_lt (fst y) (fst x)) (fun y_first =>
        if y_first
        then obind (insert_item x rest) (fun r => Return (y :: r))
        else Return (x :: y :: rest))
  end.

Fixpoint sorted (items : list (pykey * V)) : outcome (list (pykey * V)) :=
  match items with
  | [] => Return []
  | x :: rest => obind (sorted rest) (insert_item x)
  end.
End Sorted.

(* ================================================================== *)
(** ** [make_signable] *)

Definition signed_key : pykey := KStr (lit "signed").
Definition signatures_key : pykey := KStr (lit "signatures").

Definition make_signable (object : pyval) : pyval :=
  match object with
  | PDict d =>
      if negb (dict_contains signed_key d)
      then PDict [(signed_key, object); (signatures_key, PList [])]
      else object
  | _ => PDict [(signed_key, object); (signatures_key, PList [])]
  end.

(* ================================================================== *)
(** ** [_canonical_string_encoder] *)

(** The substitution puts a backslash before each match (the template is
    an escaped backslash, then group 1); the format string puts the
    result between double quotes. *)
Definition _canonical_string_encoder (string : pykey) : outcome pystr :=
  obind (re_sub [quote_char; backslash_char]
                [RChar backslash_char; RGroup1] string)
        (fun escaped => Return ([quote_char] ++ escaped ++ [quote_char])).

(* ================================================================== *)
(** ** [_encode_canonical] *)

(** The output callable: it receives one fragment and may do anything to
    the world, raising included. *)
Definition callable (W : Type) : Type := pystr -> M W unit.

Section Encoder.
Variable W : Type.
Variable output_function : callable W.

(** The body shared by the [list] and the [tuple] branch.  [elements]
    holds, for each item of the sequence, the recursive call on it. *)
Definition encode_sequence (elements : list (M W unit)) : M W unit :=
  output_function (lit "[") ;;
  (if (0 <? List.length elements)%nat
   then
     for_each (removelast elements) (fun item =>
       item ;;
       output_function (lit ",")) ;;
     last elements (ret tt)
   else ret tt) ;;
  output_function (lit "]").

(** One entry of a mapping: the key, a colon, the recursive call. *)
Definition encode_entry (entry : pykey * M W unit) : M W unit :=
  k <- lift (_canonical_string_encoder (fst entry)) ;;
  output_function k ;;
  output_function (lit ":") ;;
  snd entry.

(** The [dict] branch.  [entries] pairs each key with the recursive
    call on its value. *)
Definition encode_mapping (entries : list (pykey * M W unit)) : M W unit :=
  output_function (lit "{") ;;
  (if (0 <? List.length entries)%nat
   then
     items <- lift (sorted entries) ;;
     for_each (removelast items) (fun entry =>
       encode_entry entry ;;
       output_function (lit ",")) ;;
     encode_entry (last items (KNone, ret tt))
   else ret tt) ;;
  output_function (lit "}").

Fixpoint _encode_canonical (object : pyval) : M W unit :=
  match object with
  | PStr s =>
      frag <- lift (_canonical_string_encoder (KStr s)) ;;
      output_function frag
  | PBool true => output_function (lit "true")
  | PBool false => output_function (lit "false")
  | PNone => output_function (lit "null")
  | PInt n => output_function (str_int n)
  | PList l => encode_sequence (map _encode_canonical l)
  | PTuple l => encode_sequence (map _encode_canonical l)
  | PDict d =>
      encode_mapping
        (map (fun kv => (fst kv, _encode_canonical (snd kv))) d)
  | PFloat _ | PObject _ =>
      raise (FormatError [Lit "I cannot encode "; Repr object])
  end.
End Encoder.

(* ================================================================== *)
(** ** [encode_canonical] *)

(** [result.append], the callable used when no [output_function] is
    given; its world is the list [result]. *)
Definition list_append : callable (list pystr) :=
  fun frag result => (result ++ [frag], Return tt).

(** The handler of [encode_canonical]. *)
Definition could_not_encode (object : pyval) (e : exn) : exn :=
  FormatError ([Lit "Could not encode "; Repr object; Lit ": "] ++ str_exn e).

(** With no [output_function] the fragments go to a fresh list that is
    joined at the end, and the caller's world is not touched; otherwise
    they go to the callable and [None] is returned. *)
Definition encode_canonical {W} (object : pyval)
    (output_function : option (callable W)) : M W (option pystr) :=
  match output_function with
  | None => fun w =>
      match try_except (_encode_canonical list_append object)
                       (fun e => raise (could_not_encode object e)) [] with
      | (result, Return _) => (w, Return (Some (join_empty result)))
      | (_, Raise e) => (w, Raise e)
      end
  | Some f =>
      try_except (_encode_canonical f object)
                 (fun e => raise (could_not_encode object e)) ;;
      ret None
  end.

(* ================================================================== *)
(** ** What the encoder emits, as a pure function *)

(** A trace: the fragments handed to the callable, in order, and how the
    computation ended.  [trace_of] follows [_encode_canonical] branch by
    branch; [encoder_emits] below shows that the encoder, run with any
    callable that only stores what it receives, does exactly this. *)
Definition trace : Type := list pystr * outcome unit.

Definition temit (frag : pystr) : trace := ([frag], Return tt).

Definition tdone : trace := ([], Return tt).

Definition tfail (e : exn) : trace := ([], Raise e).

(** [t1], then [t2] unless [t1] raised. *)
Definition tseq (t1 t2 : trace) : trace :=
  match snd t1 with
  | Return _ => (fst t1 ++ fst t2, snd t2)
  | Raise e => (fst t1, Raise e)
  end.

(** The traces of [ts] one after another, a comma between two. *)
Fixpoint joined (ts : list trace) : trace :=
  match ts with
  | [] => tdone
  | t :: rest =>
      match rest with
      | [] => t
      | _ :: _ => tseq t (tseq (temit (lit ",")) (joined rest))
      end
  end.

Definition sequence_trace (ts : list trace) : trace :=
  tseq (temit (lit "[")) (tseq (joined ts) (temit (lit "]"))).

Definition entry_trace (entry : pykey * trace) : trace :=
  match _canonical_string_encoder (fst entry) with
  | Return k => tseq (temit k) (tseq (temit (lit ":")) (snd entry))
  | Raise e => tfail e
  end.

Definition mapping_trace (entries : list (pykey * trace)) : trace :=
  tseq (temit (lit "{"))
    (tseq (if (0 <? List.length entries)%nat
           then match sorted entries with
                | Return items => joined (map entry_trace items)
                | Raise e => tfail e
                end
           else tdone)
          (temit (lit "}"))).

Fixpoint trace_of (object : pyval) : trace :=
  match object with
  | PStr s =>
      match _canonical_string_encoder (KStr s) with
      | Return frag => temit frag
      | Raise e => tfail e
      end
  | PBool true => temit (lit "true")
  | PBool false => temit (lit "false")
  | PNone => temit (lit "null")
  | PInt n => temit (str_int n)
  | PList l => sequence_trace (map trace_of l)
  | PTuple l => sequence_trace (map trace_of l)
  | PDict d => mapping_trace (map (fun kv => (fst kv, trace_of (snd kv))) d)
  | PFloat _ | PObject _ =>
      tfail (FormatError [Lit "I cannot encode "; Repr object])
  end.

(** The fragments and the ending of a whole encode. *)
Definition emitted (object : pyval) : list pystr := fst (trace_of object).
Definition ending (object : pyval) : outcome unit := snd (trace_of object).

(* ================================================================== *)
(** ** Predicates on values *)

Definition is_str_key (k : pykey) : bool :=
  match k with KStr _ => true | _ => false end.

(** The closed kind set of the encoder: strings, integers, booleans,
    null, sequences (the code has one branch for lists and tuples), and
    mappings keyed by strings. *)
Fixpoint closed_kind (object : pyval) : bool :=
  match object with
  | PStr _ | PBool _ | PNone | PInt _ => true
  | PFloat _ | PObject _ => false
  | PList l | PTuple l => forallb closed_kind l
  | PDict d =>
      forallb (fun kv => is_str_key (fst kv) && closed_kind (snd kv)) d
  end.

(** Every key of every mapping in the tree is a string. *)
Fixpoint str_keys (object : pyval) : bool :=
  match object with
  | PList l | PTuple l => forallb str_keys l
  | PDict d => forallb (fun kv => is_str_key (fst kv) && str_keys (snd kv)) d
  | _ => true
  end.

(** A value of a kind the encoder has no branch for. *)
Definition unsupported (object : pyval) : bool :=
  match object with
  | PFloat _ | PObject _ => true
  | _ => false
  end.

(** [occurs v o]: [v] is [o] or a value somewhere below it. *)
Inductive occurs (v : pyval) : pyval -> Prop :=
| occurs_here : occurs v v
| occurs_list l x : In x l -> occurs v x -> occurs v (PList l)
| occurs_tuple l x : In x l -> occurs v x -> occurs v (PTuple l)
| occurs_dict d kv : In kv d -> occurs v (snd kv) -> occurs v (PDict d).

(* ================================================================== *)
(** ** Callables that only store what they receive *)

(** Such a callable is given by what one write does to the world; it
    never raises.  [result.append] is one of them. *)
Section Sink.
Variables (W : Type) (write : pystr -> W -> W).

Definition sink : callable W := fun frag w => (write frag w, Return tt).

(** The world after the fragments [frags] were written, in order. *)
Definition writes (frags : list pystr) (w : W) : W :=
  fold_left (fun w' frag => write frag w') frags w.

(** [c] writes the fragments of [t] and ends as [t] does. *)
Definition emits (c : M W unit) (t : trace) : Prop :=
  forall w, c w = (writes (fst t) w, snd t).
End Sink.

(** What [result.append] does to the list [result]. *)
Definition append_write (frag : pystr) (result : list pystr) : list pystr :=
  result ++ [frag].

(** Two items with the same key and related contents. *)
Definition same_key {V1 V2} (Q : V1 -> V2 -> Prop)
    (a : pykey * V1) (b : pykey * V2) : Prop :=
  fst a = fst b /\ Q (snd a) (snd b).

Definition outcome_rel {A B} (R : A -> B -> Prop)
    (x : outcome A) (y : outcome B) : Prop :=
  match x, y with
  | Return a, Return b => R a b
  | Raise e1, Raise e2 => e1 = e2
  | _, _ => False
  end.

(* ================================================================== *)
(** ** Running the encoder *)

(** A callable that records what it receives, in order. *)
Definition recorder : callable (list pystr) := list_append.

Definition run_buffered (object : pyval) : outcome (option pystr) :=
  snd (encode_canonical (W := unit) object None tt).

(** The text [s] between double quotes. *)
Definition quoted (s : string) : pystr := [quote_char] ++ lit s ++ [quote_char].

(** The envelope shape: a mapping that carries the key [signed]. *)
Definition has_signed (object : pyval) : bool :=
  match object with
  | PDict d => dict_contains signed_key d
  | _ => false
  end.

(** The escaping of the canonical form, character by character: a
    backslash goes before the double quote and before the backslash, and
    nothing else is touched. *)
Definition escape_char (c : N) : pystr :=
  if (c =? quote_char)%N || (c =? backslash_char)%N
  then [backslash_char; c]
  else [c].

(** The canonical text of a string. *)
Definition string_text (s : pystr) : pystr :=
  [quote_char] ++ flat_map escape_char s ++ [quote_char].

(** A decimal digit, and the number a sequence of digits denotes. *)
Definition is_digit (c : N) : bool := (48 <=? c)%N && (c <=? 57)%N.

Definition decimal_value (digits : pystr) : Z :=
  fold_left (fun acc c => 10 * acc + (Z.of_N c - 48))%Z digits 0%Z.

(** The characters of a decimal numeral of the library. *)
Definition uint_chars (d : Decimal.uint) : pystr :=
  lit (NilEmpty.string_of_uint d).

(** [sep.join(parts)]. *)
Fixpoint join_with (sep : pystr) (parts : list pystr) : pystr :=
  match parts with
  | [] => []
  | p :: rest =>
      match rest with
      | [] => p
      | _ :: _ => p ++ sep ++ join_with sep rest
      end
  end.

(** The raw text of a key that is a string. *)
Definition key_text (k : pykey) : pystr :=
  match k with
  | KStr s => s
  | _ => []
  end.

(** Item [a] goes before item [b]: its key is the smaller one in the
    order of [str], which compares code point by code point. *)
Definition before {V} (a b : pykey * V) : Prop :=
  str_ltb (key_text (fst a)) (key_text (fst b)) = true.

(** Item [b] does not go before item [a]. *)
Definition not_after {V} (a b : pykey * V) : Prop :=
  str_ltb (key_text (fst b)) (key_text (fst a)) = false.

(** The string the encode of [value] returns. *)
Definition text_of (value : pyval) : pystr :=
  match run_buffered value with
  | Return (Some s) => s
  | _ => []
  end.

(** The text of one entry of a mapping: key, colon, value. *)
Definition entry_text (kv : pykey * pyval) : pystr :=
  string_text (key_text (fst kv)) ++ lit ":" ++ text_of (snd kv).

Definition y2_x3 : list (pykey * pyval) :=
  [(KStr (lit "y"), PInt 2); (KStr (lit "x"), PInt 3)].

Definition x3_y2 : list (pykey * pyval) :=
  [(KStr (lit "x"), PInt 3); (KStr (lit "y"), PInt 2)].

(** Sample values. *)
Definition sample_role : pyval :=
  PDict [(KStr (lit "version"), PInt 8);
         (KStr (lit "_type"), PStr (lit "Timestamp"));
         (KStr (lit "meta"), PList [PBool true; PNone; PInt (-3)])].

Definition half : pyval := PFloat (FFinite 1 (-1)).

Definition list_with_float : pyval := PList [PInt 1; half].

(* ================================================================== *)
(** ** Further notions used by the results *)

(** The characters of all the strings and keys of a value. *)
Fixpoint string_chars (object : pyval) : list N :=
  match object with
  | PStr s => s
  | PList l | PTuple l => flat_map string_chars l
  | PDict d =>
      flat_map (fun kv => key_text (fst kv) ++ string_chars (snd kv)) d
  | _ => []
  end.

(** The characters the encoder writes of its own accord: brackets,
    braces, comma, colon, the minus sign, the digits, the letters of
    [true], [false] and [null], the double quote and the backslash. *)
Definition own_chars : pystr :=
  lit "[]{},:-0123456789truefalsn" ++ [quote_char; backslash_char].

(** The keys of every dictionary of the tree are pairwise distinct, as
    they are in a Python [dict]. *)
Fixpoint unique_keys (object : pyval) : Prop :=
  match object with
  | PList l | PTuple l => fold_right (fun x acc => unique_keys x /\ acc) True l
  | PDict d =>
      NoDup (map fst d) /\
      fold_right (fun kv acc => unique_keys (snd kv) /\ acc) True d
  | _ => True
  end.

(** An [output_function] that stores the fragment it is given and then
    raises [e]. *)
Definition store_then_raise (e : exn) : callable (list pystr) :=
  fun frag received => (received ++ [frag], Raise e).

(** A mapping with a float under a string key and with a key that is not
    a string. *)
Definition float_and_int_key : pyval :=
  PDict [(KStr (lit "a"), half); (KInt 3, PStr (lit "x"))].

(** What [_encode_canonical] hands to a recording callable. *)
Definition written (object : pyval) : list pystr :=
  fst (_encode_canonical recorder object []).

(** Two dictionaries built with different orders of insertion. *)
Definition inner_xy : pyval :=
  PDict [(KStr (lit "x"), PInt 1); (KStr (lit "y"), PInt 2)].

Definition inner_yx : pyval :=
  PDict [(KStr (lit "y"), PInt 2); (KStr (lit "x"), PInt 1)].

(** The elements of a sequence, list or tuple. *)
Definition seq_items (object : pyval) : option (list pyval) :=
  match object with
  | PList l | PTuple l => Some l
  | _ => None
  end.

(** [same_content a b]: [a] and [b] are the same value up to what the
    canonical form does not keep: whether a sequence is a list or a
    tuple, and the order of the items of a dictionary. *)
#[warnings="-register-all"] Inductive same_content : pyval -> pyval -> Prop :=
| same_str s : same_content (PStr s) (PStr s)
| same_bool b : same_content (PBool b) (PBool b)
| same_none : same_content PNone PNone
| same_int n : same_content (PInt n) (PInt n)
| same_seq v v' l l' :
    seq_items v = Some l ->
    seq_items v' = Some l' ->
    Forall2 same_content l l' ->
    same_content v v'
| same_dict d d' items items' :
    Permutation d items ->
    Forall2 (same_key same_content) items items' ->
    Permutation items' d' ->
    same_content (PDict d) (PDict d').

(** A character of a numeral: a digit or the minus sign. *)
Definition num_char (c : N) : bool := is_digit c || (c =? 45)%N.

(** What may come after the text of a value: nothing, or something that
    does not go on a numeral. *)
Definition follow (r : pystr) : Prop :=
  match r with
  | [] => True
  | c :: _ => num_char c = false
  end.

(** The kind of value a first character announces, and the kind of a
    value; 0 is for no kind. *)
Definition char_tag (c : N) : nat :=
  if (c =? 34)%N then 1
  else if (c =? 116)%N then 2
  else if (c =? 102)%N then 3
  else if (c =? 110)%N then 4
  else if num_char c then 5
  else if (c =? 91)%N then 6
  else if (c =? 123)%N then 7
  else 0.

Definition tag (object : pyval) : nat :=
  match object with
  | PStr _ => 1
  | PBool true => 2
  | PBool false => 3
  | PNone => 4
  | PInt _ => 5
  | PList _ | PTuple _ => 6
  | PDict _ => 7
  | PFloat _ | PObject _ => 0
  end.

(** The parts [parts], a comma between two, then the closing character
    [cl] and the rest [r]. *)
Fixpoint close_with (cl : N) (parts : list pystr) (r : pystr) : pystr :=
  match parts with
  | [] => cl :: r
  | p :: rest =>
      p ++ match rest with
           | [] => cl :: r
           | _ :: _ => 44%N :: close_with cl rest r
           end
  end.

(* ================================================================== *)
(** ** Objects that can contain themselves *)

(** A value as it lies in memory: a container holds the addresses of its
    items, so that an object can be reached from itself, as a list is
    after [x.append(x)]. *)
Inductive stored : Type :=
| OStr (s : pystr)
| OBool (b : bool)
| ONone
| OInt (n : Z)
| OFloat (f : pyfloat)
| OList (items : list nat)
| OTuple (items : list nat)
| ODict (items : list (pykey * nat))
| OObject (class_name : string).

Definition memory : Type := nat -> stored.

(** What the interpreter raises when the calls are nested deeper than it
    allows ([RuntimeError] before Python 3.5). *)
Definition recursion_error : exn :=
  OtherError "RecursionError" [Lit "maximum recursion depth exceeded"].

(** [_encode_canonical] on the object at [address].  [limit] is the
    number of nested calls the interpreter still allows; the body is the
    one of [_encode_canonical]. *)
Section EncoderAt.
Variable W : Type.
Variable output_function : callable W.
Variable mem : memory.

Fixpoint _encode_canonical_at (limit : nat) (address : nat) : M W unit :=
  match limit with
  | O => raise recursion_error
  | S limit' =>
      match mem address with
      | OStr s =>
          frag <- lift (_canonical_string_encoder (KStr s)) ;;
          output_function frag
      | OBool true => output_function (lit "true")
      | OBool false => output_function (lit "false")
      | ONone => output_function (lit "null")
      | OInt n => output_function (str_int n)
      | OList l =>
          encode_sequence output_function
            (map (_encode_canonical_at limit') l)
      | OTuple l =>
          encode_sequence output_function
            (map (_encode_canonical_at limit') l)
      | ODict d =>
          encode_mapping output_function
            (map (fun kv => (fst kv, _encode_canonical_at limit' (snd kv)))
                 d)
      | OFloat f =>
          raise (FormatError [Lit "I cannot encode "; Repr (PFloat f)])
      | OObject c =>
          raise (FormatError [Lit "I cannot encode "; Repr (PObject c)])
      end
  end.
End EncoderAt.

(** The trace of [_encode_canonical_at], as [trace_of] is the one of
    [_encode_canonical]. *)
Fixpoint trace_at (mem : memory) (limit : nat) (address : nat) : trace :=
  match limit with
  | O => tfail recursion_error
  | S limit' =>
      match mem address with
      | OStr s =>
          match _canonical_string_encoder (KStr s) with
          | Return frag => temit frag
          | Raise e => tfail e
          end
      | OBool true => temit (lit "true")
      | OBool false => temit (lit "false")
      | ONone => temit (lit "null")
      | OInt n => temit (str_int n)
      | OList l => sequence_trace (map (trace_at mem limit') l)
      | OTuple l => sequence_trace (map (trace_at mem limit') l)
      | ODict d =>
          mapping_trace
            (map (fun kv => (fst kv, trace_at mem limit' (snd kv))) d)
      | OFloat f =>
          tfail (FormatError [Lit "I cannot encode "; Repr (PFloat f)])
      | OObject c =>
          tfail (FormatError [Lit "I cannot encode "; Repr (PObject c)])
      end
  end.

(** An object the encoder writes as one fragment. *)
Definition is_leaf (o : stored) : bool :=
  match o with
  | OStr _ | OBool _ | ONone | OInt _ => true
  | _ => false
  end.

(** [lies_at mem address v]: the object at [address] and what it holds
    make up the finite tree [v]. *)
#[warnings="-register-all"] Inductive lies_at (mem : memory) : nat -> pyval -> Prop :=
| at_str a s : mem a = OStr s -> lies_at mem a (PStr s)
| at_bool a b : mem a = OBool b -> lies_at mem a (PBool b)
| at_none a : mem a = ONone -> lies_at mem a PNone
| at_int a n : mem a = OInt n -> lies_at mem a (PInt n)
| at_float a f : mem a = OFloat f -> lies_at mem a (PFloat f)
| at_object a c : mem a = OObject c -> lies_at mem a (PObject c)
| at_list a refs l :
    mem a = OList refs -> Forall2 (lies_at mem) refs l ->
    lies_at mem a (PList l)
| at_tuple a refs l :
    mem a = OTuple refs -> Forall2 (lies_at mem) refs l ->
    lies_at mem a (PTuple l)
| at_dict a refs d :
    mem a = ODict refs ->
    Forall2 (fun r kv => fst r = fst kv /\ lies_at mem (snd r) (snd kv))
            refs d ->
    lies_at mem a (PDict d).

(** The number of nested calls the encode of a tree takes. *)
Fixpoint height (object : pyval) : nat :=
  match object with
  | PList l | PTuple l => S (fold_right (fun x acc => Nat.max (height x) acc) 0 l)
  | PDict d =>
      S (fold_right (fun kv acc => Nat.max (height (snd kv)) acc) 0 d)
  | _ => 1
  end.

(** The list [[1, x]] that is its own second item [x], at address 0. *)
Definition self_list : memory :=
  fun address =>
    match address with
    | O => OList [1; 0]
    | _ => OInt 1
    end.

(* ================================================================== *)
(** * Results *)

(** ** The doctests of [encode_canonical] *)

Example doctest_empty_string :
  run_buffered (PStr []) = Return (Some (quoted "")).
Proof. reflexivity. Qed.

Example doctest_list_123 :
  run_buffered (PList [PInt 1; PInt 2; PInt 3]) = Return (Some (lit "[1,2,3]")).
Proof. reflexivity. Qed.

Example doctest_empty_list :
  run_buffered (PList []) = Return (Some (lit "[]")).
Proof. reflexivity. Qed.

Example doctest_nested :
  run_buffered (PDict [(KStr (lit "A"), PList [PInt 99])])
  = Return (Some (lit "{" ++ quoted "A" ++ lit ":[99]}")).
Proof. reflexivity. Qed.

Example doctest_sorted_keys :
  run_buffered (PDict [(KStr (lit "x"), PInt 3); (KStr (lit "y"), PInt 2)])
  = Return (Some (lit "{" ++ quoted "x" ++ lit ":3," ++ quoted "y" ++ lit ":2}")).
Proof. reflexivity. Qed.

(* ================================================================== *)
(** ** Induction on values *)

Lemma pyval_induction (P : pyval -> Prop) :
  (forall s, P (PStr s)) ->
  (forall b, P (PBool b)) ->
  P PNone ->
  (forall n, P (PInt n)) ->
  (forall f, P (PFloat f)) ->
  (forall l, Forall P l -> P (PList l)) ->
  (forall l, Forall P l -> P (PTuple l)) ->
  (forall d, Forall (fun kv => P (snd kv)) d -> P (PDict d)) ->
  (forall c, P (PObject c)) ->
  forall o, P o.
Proof.
  intros Hs Hb Hn Hi Hf Hl Ht Hd Ho.
  fix IH 1.
  intros [s | b | | n | f | l | l | d | c].
  - apply Hs.
  - apply Hb.
  - apply Hn.
  - apply Hi.
  - apply Hf.
  - apply Hl. induction l as [| x l IHl]; constructor; [apply IH | exact IHl].
  - apply Ht. induction l as [| x l IHl]; constructor; [apply IH | exact IHl].
  - apply Hd.
    induction d as [| [k v] d IHd]; constructor; [apply IH | exact IHd].
  - apply Ho.
Qed.

(* ================================================================== *)
(** ** [sorted] does not look at what is stored with the keys *)

Section SortedRelated.
Variables (V1 V2 : Type) (Q : V1 -> V2 -> Prop).

Local Abbreviation same_key := (same_key Q).

Lemma insert_item_related x1 x2 l1 l2 :
  same_key x1 x2 ->
  Forall2 same_key l1 l2 ->
  outcome_rel (Forall2 same_key) (insert_item x1 l1) (insert_item x2 l2).
Proof.
  intros Hx Hl. induction Hl as [| y1 y2 l1 l2 Hy Hl IH]; simpl.
  - constructor; [exact Hx | constructor].
  - destruct Hx as [Hk Hq], Hy as [Hk' Hq'].
    rewrite <- Hk, <- Hk'.
    destruct (key_lt (fst y1) (fst x1)) as [[|] | e]; simpl.
    + destruct (insert_item x1 l1), (insert_item x2 l2); simpl in *;
        try contradiction; try assumption.
      constructor; [split |]; assumption.
    + constructor; [split | constructor; [split |]]; assumption.
    + reflexivity.
Qed.

Lemma sorted_related l1 l2 :
  Forall2 same_key l1 l2 ->
  outcome_rel (Forall2 same_key) (sorted l1) (sorted l2).
Proof.
  induction 1 as [| x1 x2 l1 l2 Hx Hl IH]; simpl.
  - constructor.
  - destruct (sorted l1), (sorted l2); simpl in *;
      try contradiction; try assumption.
    now apply insert_item_related.
Qed.
End SortedRelated.

Lemma insert_item_permutation V (x : pykey * V) l l' :
  insert_item x l = Return l' -> Permutation (x :: l) l'.
Proof.
  revert l'. induction l as [| y l IH]; simpl; intros l' H.
  - injection H as <-. apply Permutation_refl.
  - destruct (key_lt (fst y) (fst x)) as [[|] | e]; simpl in H;
      try discriminate.
    + destruct (insert_item x l) as [r | e]; simpl in H; try discriminate.
      injection H as <-.
      apply perm_trans with (y :: x :: l); [apply perm_swap |].
      apply perm_skip, IH. reflexivity.
    + injection H as <-. apply Permutation_refl.
Qed.

Lemma sorted_permutation V (l l' : list (pykey * V)) :
  sorted l = Return l' -> Permutation l l'.
Proof.
  revert l'. induction l as [| x l IH]; simpl; intros l' H.
  - injection H as <-. constructor.
  - destruct (sorted l) as [r | e]; simpl in H; try discriminate.
    apply perm_trans with (x :: r).
    + apply perm_skip, IH. reflexivity.
    + now apply insert_item_permutation.
Qed.

(* ================================================================== *)
(** ** The encoder emits its trace *)

Section Emits.
Variables (W : Type) (write : pystr -> W -> W).

Local Abbreviation out := (sink write).
Local Abbreviation emits := (emits write).

Lemma bind_assoc_at A B C (c : M W A) (k1 : A -> M W B) (k2 : B -> M W C) w :
  bind (bind c k1) k2 w = bind c (fun a => bind (k1 a) k2) w.
Proof. unfold bind. destruct (c w) as [w' [a | e]]; reflexivity. Qed.

Lemma emits_ext c c' t : (forall w, c w = c' w) -> emits c' t -> emits c t.
Proof. intros E H w. rewrite E. apply H. Qed.

Lemma emits_sink frag : emits (out frag) (temit frag).
Proof. intro w. reflexivity. Qed.

Lemma emits_ret : emits (ret tt) tdone.
Proof. intro w. reflexivity. Qed.

Lemma emits_raise e : emits (raise e) (tfail e).
Proof. intro w. reflexivity. Qed.

Lemma emits_seq c1 c2 t1 t2 :
  emits c1 t1 -> emits c2 t2 -> emits (c1 ;; c2) (tseq t1 t2).
Proof.
  intros H1 H2 w. unfold bind. rewrite H1.
  destruct t1 as [f1 [u | e]]; unfold tseq; simpl; [| reflexivity].
  rewrite H2. unfold writes. now rewrite fold_left_app.
Qed.

Lemma emits_lift A (oc : outcome A) (body : A -> M W unit) t :
  (forall a, oc = Return a -> emits (body a) t) ->
  (forall e, oc = Raise e -> t = tfail e) ->
  emits (a <- lift oc ;; body a) t.
Proof.
  intros Hr He w. unfold bind, lift. destruct oc as [a | e].
  - now apply Hr.
  - now rewrite (He e eq_refl).
Qed.

(** The loop of both container branches: every item but the last is
    followed by a comma. *)
Lemma emits_loop A (body : A -> M W unit) items ts d :
  Forall2 (fun x t => emits (body x) t) items ts ->
  items <> [] ->
  emits (for_each (removelast items) (fun x => body x ;; out (lit ",")) ;;
         body (last items d))
        (joined ts).
Proof.
  induction 1 as [| x t items ts Hx Hrest IH]; intros Hne; [easy |].
  destruct Hrest as [| x' t' items ts Hx' Hrest].
  - eapply emits_ext; [| exact Hx].
    intro w. reflexivity.
  - change (removelast (x :: x' :: items))
      with (x :: removelast (x' :: items)).
    change (last (x :: x' :: items) d) with (last (x' :: items) d).
    change (joined (t :: t' :: ts))
      with (tseq t (tseq (temit (lit ",")) (joined (t' :: ts)))).
    eapply emits_ext.
    { intro w. cbn [for_each]. rewrite bind_assoc_at.
      rewrite bind_assoc_at. reflexivity. }
    apply emits_seq; [exact Hx |].
    apply emits_seq; [apply emits_sink |].
    apply IH. discriminate.
Qed.

Lemma emits_sequence thunks ts :
  Forall2 emits thunks ts ->
  emits (encode_sequence out thunks) (sequence_trace ts).
Proof.
  intros H. unfold encode_sequence, sequence_trace.
  apply emits_seq; [apply emits_sink |].
  apply emits_seq; [| apply emits_sink].
  destruct H as [| c t thunks ts Hc Hrest]; [apply emits_ret |].
  change (0 <? List.length (c :: thunks))%nat with true. cbv iota.
  apply (emits_loop (fun item : M W unit => item) (ret tt)).
  - now constructor.
  - discriminate.
Qed.

Lemma emits_entry e1 e2 :
  same_key emits e1 e2 -> emits (encode_entry out e1) (entry_trace e2).
Proof.
  intros [Hk Hv]. unfold encode_entry, entry_trace. rewrite <- Hk.
  apply emits_lift.
  - intros k ->. apply emits_seq; [apply emits_sink |].
    apply emits_seq; [apply emits_sink | exact Hv].
  - now intros e ->.
Qed.

Lemma emits_mapping entries tentries :
  Forall2 (same_key emits) entries tentries ->
  emits (encode_mapping out entries) (mapping_trace tentries).
Proof.
  intros H. unfold encode_mapping, mapping_trace.
  apply emits_seq; [apply emits_sink |].
  apply emits_seq; [| apply emits_sink].
  rewrite <- (Forall2_length H).
  destruct (0 <? List.length entries)%nat eqn:Hlen; [| apply emits_ret].
  pose proof (sorted_related H) as Hs.
  apply emits_lift.
  - intros items Hi. rewrite Hi in Hs.
    destruct (sorted tentries) as [titems | e]; simpl in Hs; [| easy].
    apply emits_loop.
    + clear - Hs. induction Hs; constructor; auto using emits_entry.
    + intros ->. apply sorted_permutation, Permutation_sym,
        Permutation_nil in Hi.
      subst entries. discriminate.
  - intros e He. rewrite He in Hs.
    destruct (sorted tentries) as [titems | e']; simpl in Hs; [easy |].
    now subst.
Qed.

Theorem encoder_emits object :
  emits (_encode_canonical out object) (trace_of object).
Proof.
  induction object as [s | [|] | | n | f | l IH | l IH | d IH | c]
    using pyval_induction; simpl.
  - apply emits_lift.
    + intros k Hk. simpl in Hk. injection Hk as <-. apply emits_sink.
    + intros e He. discriminate.
  - apply emits_sink.
  - apply emits_sink.
  - apply emits_sink.
  - apply emits_sink.
  - apply emits_raise.
  - apply emits_sequence. induction IH; constructor; assumption.
  - apply emits_sequence. induction IH; constructor; assumption.
  - apply emits_mapping. induction IH; constructor; [split |]; auto.
  - apply emits_raise.
Qed.
End Emits.

(* ================================================================== *)
(** ** How a trace ends *)

Lemma tseq_ending t1 t2 :
  snd (tseq t1 t2)
  = match snd t1 with Return _ => snd t2 | Raise e => Raise e end.
Proof. unfold tseq. destruct (snd t1); reflexivity. Qed.

Lemma joined_raise ts e :
  snd (joined ts) = Raise e -> exists t, In t ts /\ snd t = Raise e.
Proof.
  induction ts as [| t ts IH]; [discriminate |].
  destruct ts as [| t' ts].
  - intros H. exists t. split; [now left | exact H].
  - change (joined (t :: t' :: ts))
      with (tseq t (tseq (temit (lit ",")) (joined (t' :: ts)))).
    rewrite !tseq_ending. simpl (snd (temit _)).
    destruct (snd t) as [u | e'] eqn:Ht.
    + intros H. destruct (IH H) as [x [Hin Hx]].
      exists x. split; [now right | exact Hx].
    + intros H. injection H as <-. exists t. split; [now left | exact Ht].
Qed.

Lemma joined_return ts :
  Forall (fun t => snd t = Return tt) ts -> snd (joined ts) = Return tt.
Proof.
  induction 1 as [| t ts Ht Hts IH]; [reflexivity |].
  destruct ts as [| t' ts]; [exact Ht |].
  change (joined (t :: t' :: ts))
    with (tseq t (tseq (temit (lit ",")) (joined (t' :: ts)))).
  rewrite !tseq_ending, Ht. exact IH.
Qed.

Lemma key_lt_raise a b e :
  key_lt a b = Raise e ->
  (exists m, e = TypeError m) /\ (is_str_key a = false \/ is_str_key b = false).
Proof.
  destruct a, b; simpl; try discriminate; intros H; injection H as <-;
    (split; [eexists; reflexivity | auto]).
Qed.

Lemma insert_item_raise V (x : pykey * V) l e :
  insert_item x l = Raise e ->
  (exists m, e = TypeError m) /\
  exists y, In y (x :: l) /\ is_str_key (fst y) = false.
Proof.
  induction l as [| y l IH]; simpl; [discriminate |].
  destruct (key_lt (fst y) (fst x)) as [[|] | e'] eqn:Hlt; simpl.
  - destruct (insert_item x l) as [r | e'']; simpl; [discriminate |].
    intros H. injection H as <-.
    destruct (IH eq_refl) as [Hm [z [[<- | Hz] Hk]]].
    + split; [exact Hm |]. exists x. split; [now left | exact Hk].
    + split; [exact Hm |]. exists z. split; [now right; right | exact Hk].
  - discriminate.
  - intros H. injection H as <-.
    destruct (key_lt_raise _ _ Hlt) as [Hm [Hk | Hk]].
    + split; [exact Hm |]. exists y. split; [now right; left | exact Hk].
    + split; [exact Hm |]. exists x. split; [now left | exact Hk].
Qed.

Lemma sorted_raise V (l : list (pykey * V)) e :
  sorted l = Raise e ->
  (exists m, e = TypeError m) /\
  exists y, In y l /\ is_str_key (fst y) = false.
Proof.
  induction l as [| x l IH]; simpl; [discriminate |].
  destruct (sorted l) as [r | e'] eqn:Hs; simpl.
  - intros H. destruct (insert_item_raise _ _ H) as [Hm [y [Hin Hk]]].
    split; [exact Hm |]. exists y. split; [| exact Hk].
    destruct Hin as [<- | Hin]; [now left | right].
    eapply Permutation_in; [apply Permutation_sym, sorted_permutation, Hs |].
    exact Hin.
  - intros H. injection H as <-.
    destruct (IH eq_refl) as [Hm [y [Hin Hk]]].
    split; [exact Hm |]. exists y. split; [now right | exact Hk].
Qed.

Lemma insert_item_return V (x : pykey * V) l :
  is_str_key (fst x) = true ->
  Forall (fun y => is_str_key (fst y) = true) l ->
  exists l', insert_item x l = Return l'.
Proof.
  intros Hx Hl. induction Hl as [| y l Hy Hl IH]; simpl.
  - eexists; reflexivity.
  - destruct x as [[sx | |] vx], y as [[sy | |] vy]; try discriminate.
    simpl. destruct (str_ltb sy sx).
    + destruct IH as [r ->]. simpl. eexists; reflexivity.
    + eexists; reflexivity.
Qed.

Lemma sorted_return V (l : list (pykey * V)) :
  Forall (fun y => is_str_key (fst y) = true) l ->
  exists l', sorted l = Return l'.
Proof.
  induction 1 as [| x l Hx Hl IH]; simpl.
  - eexists; reflexivity.
  - destruct IH as [r Hr]. rewrite Hr. simpl.
    apply insert_item_return; [exact Hx |].
    eapply Permutation_Forall; [apply sorted_permutation, Hr | exact Hl].
Qed.

Lemma joined_return_inv ts u :
  snd (joined ts) = Return u -> Forall (fun t => snd t = Return tt) ts.
Proof.
  induction ts as [| t ts IH]; [constructor |].
  destruct ts as [| t' ts].
  - intros H. destruct u. repeat constructor. exact H.
  - change (joined (t :: t' :: ts))
      with (tseq t (tseq (temit (lit ",")) (joined (t' :: ts)))).
    rewrite !tseq_ending. simpl (snd (temit _)).
    destruct (snd t) as [[] | e'] eqn:Ht; [| discriminate].
    intros H. constructor; [exact Ht | exact (IH H)].
Qed.

Lemma sequence_ending ts : snd (sequence_trace ts) = snd (joined ts).
Proof.
  unfold sequence_trace. rewrite !tseq_ending. simpl.
  destruct (snd (joined ts)) as [[] |]; reflexivity.
Qed.

Lemma mapping_ending (entries : list (pykey * trace)) :
  snd (mapping_trace entries)
  = match entries with
    | [] => Return tt
    | _ :: _ =>
        match sorted entries with
        | Return items => snd (joined (map entry_trace items))
        | Raise e => Raise e
        end
    end.
Proof.
  unfold mapping_trace. rewrite !tseq_ending. simpl (snd (temit _)).
  destruct entries as [| x entries]; [reflexivity |].
  change (0 <? List.length (x :: entries))%nat with true. cbv iota.
  destruct (sorted (x :: entries)) as [items | e]; [| reflexivity].
  destruct (snd (joined (map entry_trace items))) as [[] |]; reflexivity.
Qed.

Lemma entry_trace_ending (entry : pykey * trace) :
  snd (entry_trace entry)
  = match fst entry with
    | KStr _ => snd (snd entry)
    | _ => Raise (TypeError [Lit "expected string or bytes-like object"])
    end.
Proof.
  unfold entry_trace. destruct (fst entry); reflexivity.
Qed.

Lemma mapping_return (entries : list (pykey * trace)) :
  Forall (fun y => is_str_key (fst y) = true /\ snd (snd y) = Return tt)
         entries ->
  snd (mapping_trace entries) = Return tt.
Proof.
  intros H. rewrite mapping_ending.
  destruct entries as [| x entries]; [reflexivity |].
  destruct (sorted (x :: entries)) as [items | e] eqn:Hi.
  2:{ destruct (@sorted_return _ (x :: entries)) as [items Hi'].
      { eapply Forall_impl; [| exact H]. now intros y [Hy _]. }
      congruence. }
  apply joined_return, Forall_map.
  eapply Permutation_Forall; [apply sorted_permutation, Hi |].
  eapply Forall_impl; [| exact H].
  intros [k t] [Hk Hv]. rewrite entry_trace_ending. simpl in *.
  destruct k; [exact Hv | discriminate | discriminate].
Qed.

Lemma mapping_return_inv (entries : list (pykey * trace)) u :
  snd (mapping_trace entries) = Return u ->
  Forall (fun y => is_str_key (fst y) = true /\ snd (snd y) = Return tt)
         entries.
Proof.
  rewrite mapping_ending.
  destruct entries as [| x entries]; [constructor |].
  destruct (sorted (x :: entries)) as [items | e] eqn:Hi; [| discriminate].
  intros H. apply joined_return_inv in H.
  eapply Permutation_Forall;
    [apply Permutation_sym, sorted_permutation, Hi |].
  rewrite Forall_map in H.
  eapply Forall_impl; [| exact H].
  intros [k t] Hy. rewrite entry_trace_ending in Hy. simpl in *.
  destruct k; try discriminate. split; [reflexivity | exact Hy].
Qed.

Lemma mapping_raise (entries : list (pykey * trace)) e :
  snd (mapping_trace entries) = Raise e ->
  (exists y, In y entries /\ is_str_key (fst y) = false /\
             exists m, e = TypeError m)
  \/ (exists y, In y entries /\ snd (snd y) = Raise e).
Proof.
  rewrite mapping_ending.
  destruct entries as [| x entries]; [discriminate |].
  destruct (sorted (x :: entries)) as [items | e'] eqn:Hi.
  - intros H. apply joined_raise in H. destruct H as [t [Hin Ht]].
    apply in_map_iff in Hin. destruct Hin as [y [<- Hy]].
    assert (Hy' : In y (x :: entries)).
    { eapply Permutation_in;
        [apply Permutation_sym, sorted_permutation, Hi | exact Hy]. }
    rewrite entry_trace_ending in Ht. destruct y as [k t]. simpl in Ht.
    destruct k.
    + right. exists (KStr s, t). split; [exact Hy' | exact Ht].
    + left. exists (KInt n, t). injection Ht as <-.
      repeat split; [exact Hy' | eexists; reflexivity].
    + left. exists (KNone, t). injection Ht as <-.
      repeat split; [exact Hy' | eexists; reflexivity].
  - intros H. injection H as <-.
    destruct (sorted_raise _ Hi) as [Hm [y [Hin Hk]]].
    left. exists y. repeat split; assumption.
Qed.

(** The encode goes through exactly when the value is of the closed
    kind set. *)
Lemma ending_closed object :
  closed_kind object = true -> ending object = Return tt.
Proof.
  unfold ending.
  induction object as [s | [|] | | n | f | l IH | l IH | d IH | c]
    using pyval_induction; cbn [trace_of closed_kind];
    try reflexivity; try discriminate.
  - intros H. rewrite sequence_ending. apply joined_return, Forall_map.
    rewrite forallb_forall in H. rewrite Forall_forall in IH |- *. auto.
  - intros H. rewrite sequence_ending. apply joined_return, Forall_map.
    rewrite forallb_forall in H. rewrite Forall_forall in IH |- *. auto.
  - intros H. apply mapping_return, Forall_map.
    rewrite forallb_forall in H. rewrite Forall_forall in IH |- *.
    intros kv Hin. specialize (H kv Hin). apply andb_true_iff in H.
    destruct H as [Hk Hv]. simpl. split; [exact Hk | now apply IH].
Qed.

Lemma ending_return_closed object u :
  ending object = Return u -> closed_kind object = true.
Proof.
  unfold ending. destruct u.
  induction object as [s | [|] | | n | f | l IH | l IH | d IH | c]
    using pyval_induction; cbn [trace_of closed_kind];
    try reflexivity; try discriminate.
  - rewrite sequence_ending. intros H. apply joined_return_inv in H.
    rewrite Forall_map in H. apply forallb_forall.
    rewrite Forall_forall in IH, H. intros x Hx.
    exact (IH x Hx (H x Hx)).
  - rewrite sequence_ending. intros H. apply joined_return_inv in H.
    rewrite Forall_map in H. apply forallb_forall.
    rewrite Forall_forall in IH, H. intros x Hx.
    exact (IH x Hx (H x Hx)).
  - intros H. apply mapping_return_inv in H.
    rewrite Forall_map in H. apply forallb_forall.
    rewrite Forall_forall in IH, H. intros kv Hin.
    destruct (H kv Hin) as [Hk Hv]. simpl in Hk, Hv.
    apply andb_true_iff. split; [exact Hk | exact (IH kv Hin Hv)].
Qed.

(** What an encode can raise: the error of the last branch, naming a
    value of the tree it has no branch for, or, when some key is not a
    string, a [TypeError]. *)
Lemma ending_raise object e :
  ending object = Raise e ->
  (exists v, occurs v object /\ unsupported v = true /\
             e = FormatError [Lit "I cannot encode "; Repr v])
  \/ (str_keys object = false /\ exists m, e = TypeError m).
Proof.
  unfold ending. revert e.
  induction object as [s | [|] | | n | f | l IH | l IH | d IH | c]
    using pyval_induction; cbn [trace_of str_keys]; intros e;
    try discriminate.
  - intros H. injection H as <-. left. exists (PFloat f).
    repeat split. constructor.
  - rewrite sequence_ending. intros H. apply joined_raise in H.
    destruct H as [t [Hin Ht]]. apply in_map_iff in Hin.
    destruct Hin as [x [<- Hx]]. rewrite Forall_forall in IH.
    destruct (IH x Hx e Ht) as [[v [Ho [Hu He]]] | [Hk Hm]].
    + left. exists v. repeat split; try assumption.
      now apply occurs_list with x.
    + right. split; [| exact Hm].
      apply not_true_is_false. intros Hall.
      rewrite forallb_forall in Hall. rewrite (Hall x Hx) in Hk.
      discriminate.
  - rewrite sequence_ending. intros H. apply joined_raise in H.
    destruct H as [t [Hin Ht]]. apply in_map_iff in Hin.
    destruct Hin as [x [<- Hx]]. rewrite Forall_forall in IH.
    destruct (IH x Hx e Ht) as [[v [Ho [Hu He]]] | [Hk Hm]].
    + left. exists v. repeat split; try assumption.
      now apply occurs_tuple with x.
    + right. split; [| exact Hm].
      apply not_true_is_false. intros Hall.
      rewrite forallb_forall in Hall. rewrite (Hall x Hx) in Hk.
      discriminate.
  - intros H. apply mapping_raise in H. rewrite Forall_forall in IH.
    destruct H as [[y [Hin [Hk Hm]]] | [y [Hin Hy]]];
      apply in_map_iff in Hin; destruct Hin as [kv [<- Hkv]];
      simpl in *.
    + right. split; [| exact Hm].
      apply not_true_is_false. intros Hall.
      rewrite forallb_forall in Hall. specialize (Hall kv Hkv).
      rewrite Hk in Hall. discriminate.
    + destruct (IH kv Hkv e Hy) as [[v [Ho [Hu He]]] | [Hk Hm]].
      * left. exists v. repeat split; try assumption.
        now apply occurs_dict with kv.
      * right. split; [| exact Hm].
        apply not_true_is_false. intros Hall.
        rewrite forallb_forall in Hall. specialize (Hall kv Hkv).
        rewrite Hk, andb_false_r in Hall. discriminate.
  - intros H. injection H as <-. left. exists (PObject c).
    repeat split. constructor.
Qed.

Lemma ending_catchable object e :
  ending object = Raise e ->
  (exists m, e = TypeError m) \/ (exists m, e = FormatError m).
Proof.
  intros H. destruct (ending_raise _ H) as [[v [_ [_ ->]]] | [_ Hm]].
  - right. eexists; reflexivity.
  - left. exact Hm.
Qed.

(* ================================================================== *)
(** ** The two modes of [encode_canonical] *)

Lemma writes_append frags result :
  writes append_write frags result = result ++ frags.
Proof.
  revert result. induction frags as [| f frags IH]; intros result.
  - simpl. now rewrite app_nil_r.
  - change (writes append_write (f :: frags) result)
      with (writes append_write frags (append_write f result)).
    rewrite IH. unfold append_write. now rewrite <- app_assoc.
Qed.

(** Buffering: the caller's world is left alone; the joined fragments
    are returned, or the [FormatError] of the handler is raised. *)
Lemma encode_canonical_buffered W object (w : W) :
  encode_canonical object None w
  = (w, match ending object with
        | Return _ => Return (Some (join_empty (emitted object)))
        | Raise e => Raise (could_not_encode object e)
        end).
Proof.
  unfold encode_canonical, try_except.
  change list_append with (sink append_write).
  rewrite (encoder_emits append_write object []), writes_append.
  fold (ending object) (emitted object).
  destruct (ending object) as [u | e] eqn:He; [reflexivity |].
  destruct (ending_catchable _ He) as [[m ->] | [m ->]]; reflexivity.
Qed.

(** Through a storing callable: the fragments are written in order, and
    [None] is returned, or the [FormatError] of the handler is raised. *)
Lemma encode_canonical_sink W (write : pystr -> W -> W) object w :
  encode_canonical object (Some (sink write)) w
  = (writes write (emitted object) w,
     match ending object with
     | Return _ => Return None
     | Raise e => Raise (could_not_encode object e)
     end).
Proof.
  unfold encode_canonical, try_except, bind.
  rewrite (encoder_emits write object w).
  fold (ending object) (emitted object).
  destruct (ending object) as [u | e] eqn:He; [reflexivity |].
  destruct (ending_catchable _ He) as [[m ->] | [m ->]]; reflexivity.
Qed.

(* ================================================================== *)
(** ** Determinism and rejection *)

(** C1 -- Determinism.  For every value of the closed kind set (string,
    integer, boolean, null, sequence, mapping keyed by strings) the
    encode returns a string, and any two calls of [encode_canonical] on
    that value, in whatever worlds they are made, return the same
    string. *)
Theorem encode_canonical_deterministic (object : pyval) :
  closed_kind object = true ->
  exists out : pystr,
    forall (W1 W2 : Type) (w1 : W1) (w2 : W2),
      encode_canonical object None w1 = (w1, Return (Some out)) /\
      encode_canonical object None w2 = (w2, Return (Some out)).
Proof.
  intros H. exists (join_empty (emitted object)). intros W1 W2 w1 w2.
  rewrite !encode_canonical_buffered, (ending_closed _ H). now split.
Qed.

Lemma encode_canonical_deterministic_witness :
  closed_kind sample_role = true /\
  exists out : pystr,
    forall (W1 W2 : Type) (w1 : W1) (w2 : W2),
      encode_canonical sample_role None w1 = (w1, Return (Some out)) /\
      encode_canonical sample_role None w2 = (w2, Return (Some out)).
Proof.
  split; [reflexivity |].
  apply (encode_canonical_deterministic sample_role). reflexivity.
Defined.

(** C4, as the claim states it, fails: the mapping of [a] to 0.5 and of
    3 to [x] holds a float and is refused, but the error does not name
    the float.  The keys do not compare, so [sorted] raises a [TypeError]
    before any value is looked at, and the message is the [repr] of the
    whole mapping followed by the text of that [TypeError]. *)
Lemma rejection_need_not_name_the_float :
  occurs half float_and_int_key /\
  run_buffered float_and_int_key
  = Raise (FormatError [Lit "Could not encode "; Repr float_and_int_key;
                        Lit ": ";
                        Lit "'<' not supported between instances"]).
Proof.
  split; [| reflexivity].
  apply occurs_dict with (KStr (lit "a"), half); [now left | constructor].
Qed.

(** C4, amended -- Rejection.  A value, a finite tree, outside the
    closed kind set (a float or a foreign object anywhere in it, or a key
    that is not a string) makes the whole encode raise [FormatError],
    with no output callable or with one that only stores; nothing is
    returned, and nothing is truncated or coerced.  The message holds the
    [repr] of the whole value passed, then the text of the error
    underneath: that text names a value of the tree that no branch
    encodes, or else some key is not a string and the text is that of the
    [TypeError] this raised, which names no value.  So when all keys are
    strings the offending value is named. *)
Theorem encode_canonical_rejects (object : pyval) :
  closed_kind object = false ->
  exists e : exn,
    (forall W (w : W),
       encode_canonical object None w
       = (w, Raise (FormatError ([Lit "Could not encode "; Repr object;
                                  Lit ": "] ++ str_exn e)))) /\
    (forall W (write : pystr -> W -> W) (w : W),
       encode_canonical object (Some (sink write)) w
       = (writes write (emitted object) w,
          Raise (FormatError ([Lit "Could not encode "; Repr object;
                               Lit ": "] ++ str_exn e)))) /\
    ((exists v, occurs v object /\ unsupported v = true /\
                e = FormatError [Lit "I cannot encode "; Repr v])
     \/ (str_keys object = false /\ exists m, e = TypeError m)).
Proof.
  intros H. destruct (ending object) as [u | e] eqn:He.
  - apply ending_return_closed in He. congruence.
  - exists e. split; [| split].
    + intros W w. now rewrite encode_canonical_buffered, He.
    + intros W write w. now rewrite encode_canonical_sink, He.
    + now apply ending_raise.
Qed.

Lemma encode_canonical_rejects_witness :
  closed_kind list_with_float = false /\
  exists e : exn,
    (forall W (w : W),
       encode_canonical list_with_float None w
       = (w, Raise (FormatError ([Lit "Could not encode ";
                                  Repr list_with_float;
                                  Lit ": "] ++ str_exn e)))) /\
    (forall W (write : pystr -> W -> W) (w : W),
       encode_canonical list_with_float (Some (sink write)) w
       = (writes write (emitted list_with_float) w,
          Raise (FormatError ([Lit "Could not encode ";
                               Repr list_with_float;
                               Lit ": "] ++ str_exn e)))) /\
    ((exists v, occurs v list_with_float /\ unsupported v = true /\
                e = FormatError [Lit "I cannot encode "; Repr v])
     \/ (str_keys list_with_float = false /\ exists m, e = TypeError m)).
Proof.
  split; [reflexivity |].
  apply (encode_canonical_rejects list_with_float). reflexivity.
Defined.

(* ================================================================== *)
(** ** The two modes *)

(** C8 -- Agreement of the modes.  When the encode without a callable
    returns the string [s], the encode through a storing callable hands
    over fragments whose concatenation, left to right, is [s]. *)
Theorem sink_and_buffer_agree (object : pyval) (s : pystr) :
  run_buffered object = Return (Some s) ->
  exists frags : list pystr,
    join_empty frags = s /\
    (forall W (write : pystr -> W -> W) (w : W),
       encode_canonical object (Some (sink write)) w
       = (writes write frags w, Return None)) /\
    (forall received : list pystr,
       encode_canonical object (Some recorder) received
       = (received ++ frags, Return None)).
Proof.
  unfold run_buffered. intros H.
  rewrite encode_canonical_buffered in H. simpl in H.
  destruct (ending object) as [u | e] eqn:He; [| discriminate].
  injection H as <-. exists (emitted object).
  split; [reflexivity |]. split.
  - intros W write w. now rewrite encode_canonical_sink, He.
  - intros received. change recorder with (sink append_write).
    now rewrite encode_canonical_sink, He, writes_append.
Qed.

Lemma sink_and_buffer_agree_witness :
  run_buffered (PList [PInt 1; PInt 2; PInt 3]) = Return (Some (lit "[1,2,3]"))
  /\ exists frags : list pystr,
    join_empty frags = lit "[1,2,3]" /\
    (forall W (write : pystr -> W -> W) (w : W),
       encode_canonical (PList [PInt 1; PInt 2; PInt 3]) (Some (sink write)) w
       = (writes write frags w, Return None)) /\
    (forall received : list pystr,
       encode_canonical (PList [PInt 1; PInt 2; PInt 3]) (Some recorder)
                        received
       = (received ++ frags, Return None)).
Proof.
  split; [reflexivity |].
  apply (sink_and_buffer_agree (PList [PInt 1; PInt 2; PInt 3])).
  reflexivity.
Defined.

(** C10 -- What is returned.  For an encodable value, the encode through
    a storing callable returns [None]; whatever the callable, a value
    returned in that mode is [None]; the string is returned when no
    callable is given. *)
Theorem sink_mode_returns_none (object : pyval) :
  closed_kind object = true ->
  (forall W (write : pystr -> W -> W) (w : W),
     snd (encode_canonical object (Some (sink write)) w) = Return None) /\
  (forall W (f : callable W) (w : W) r,
     snd (encode_canonical object (Some f) w) = Return r -> r = None) /\
  (forall W (w : W),
     exists s, snd (encode_canonical object None w) = Return (Some s)).
Proof.
  intros H. split; [| split].
  - intros W write w. now rewrite encode_canonical_sink, (ending_closed _ H).
  - intros W f w r. unfold encode_canonical, bind.
    destruct (try_except _ _ w) as [w' [a | e]]; simpl; [| discriminate].
    intros E. now injection E as <-.
  - intros W w. rewrite encode_canonical_buffered, (ending_closed _ H).
    eexists; reflexivity.
Qed.

Lemma sink_mode_returns_none_witness :
  closed_kind sample_role = true /\
  (forall W (write : pystr -> W -> W) (w : W),
     snd (encode_canonical sample_role (Some (sink write)) w) = Return None) /\
  (forall W (f : callable W) (w : W) r,
     snd (encode_canonical sample_role (Some f) w) = Return r -> r = None) /\
  (forall W (w : W),
     exists s, snd (encode_canonical sample_role None w) = Return (Some s)).
Proof.
  split; [reflexivity |].
  apply (sink_mode_returns_none sample_role). reflexivity.
Defined.

(** C9, as the claim states it, fails: the list [[1, 0.5]] cannot be
    encoded, and when the error is raised the callable has already
    received three fragments. *)
Lemma sink_receives_fragments_before_failure :
  encode_canonical list_with_float (Some recorder) []
  = ([lit "["; lit "1"; lit ","],
     Raise (FormatError [Lit "Could not encode "; Repr list_with_float;
                         Lit ": "; Lit "I cannot encode "; Repr half])).
Proof. reflexivity. Qed.

Lemma run_recorder object received :
  _encode_canonical recorder object received
  = (received ++ emitted object, ending object).
Proof.
  change recorder with (sink append_write).
  rewrite (encoder_emits append_write object received).
  now rewrite writes_append.
Qed.

Lemma written_emitted object : written object = emitted object.
Proof. unfold written. now rewrite run_recorder. Qed.

(** C9, amended -- What a failed encode leaves behind.  Take any call of
    [encode_canonical] that fails, whatever the exception and whatever
    the output callable.  It returns no string.  With no output callable
    it leaves nothing behind: the fragments gathered so far are dropped
    with the list that held them, and the caller's world is as it was.
    With an output callable nothing is taken back: the world is as the
    calls made before the failure left it; for a callable that only
    stores, the fragments the encoder writes before failing have been
    stored. *)
Theorem failed_encode_leaves_fragments (W : Type) (object : pyval)
    (output_function : option (callable W)) (w : W) (e : exn) :
  snd (encode_canonical object output_function w) = Raise e ->
  match output_function with
  | None => encode_canonical object output_function w = (w, Raise e)
  | Some f =>
      fst (encode_canonical object output_function w)
      = fst (_encode_canonical f object w) /\
      forall write : pystr -> W -> W,
        f = sink write ->
        fst (_encode_canonical f object w)
        = writes write (written object) w
  end.
Proof.
  destruct output_function as [f |]; intros H.
  - split.
    + unfold encode_canonical, bind, try_except.
      destruct (_encode_canonical f object w) as [w' [u | [m | m | c m]]];
        reflexivity.
    + intros write ->. rewrite written_emitted.
      now rewrite (encoder_emits write object w).
  - unfold encode_canonical in *.
    destruct (try_except _ _ []) as [result [u | e']]; simpl in *;
      congruence.
Qed.

Lemma failed_encode_leaves_fragments_witness :
  snd (encode_canonical list_with_float (Some recorder) [])
  = Raise (FormatError [Lit "Could not encode "; Repr list_with_float;
                        Lit ": "; Lit "I cannot encode "; Repr half]) /\
  fst (encode_canonical list_with_float (Some recorder) [])
  = fst (_encode_canonical recorder list_with_float []) /\
  forall write : pystr -> list pystr -> list pystr,
    recorder = sink write ->
    fst (_encode_canonical recorder list_with_float [])
    = writes write (written list_with_float) [].
Proof.
  split; [reflexivity |].
  exact (@failed_encode_leaves_fragments (list pystr) list_with_float
           (Some recorder) [] _ eq_refl).
Defined.

(* ================================================================== *)
(** ** The signable envelope *)

Lemma make_signable_cases (object : pyval) :
  make_signable object
  = if has_signed object
    then object
    else PDict [(signed_key, object); (signatures_key, PList [])].
Proof.
  destruct object as [s | b | | n | f | l | l | d | c]; try reflexivity.
  simpl. now destruct (dict_contains signed_key d).
Qed.

(** C5 -- Wrapping.  [make_signable] returns a payload that has the
    envelope shape (a mapping with the key [signed]) as it is, and
    otherwise the mapping of [signed] to the payload and of [signatures]
    to an empty list. *)
Theorem make_signable_wraps (object : pyval) :
  make_signable object
  = if has_signed object
    then object
    else PDict [(signed_key, object); (signatures_key, PList [])].
Proof.
  unfold has_signed, make_signable.
  destruct object as [s | b | | n | f | l | l | d | c]; try reflexivity.
  destruct (dict_contains signed_key d); reflexivity.
Qed.

(** C6 -- Idempotence.  Wrapping twice is wrapping once. *)
Theorem make_signable_idempotent (object : pyval) :
  make_signable (make_signable object) = make_signable object.
Proof.
  rewrite (make_signable_cases object).
  destruct (has_signed object) eqn:H.
  - now rewrite make_signable_cases, H.
  - reflexivity.
Qed.

(* ================================================================== *)
(** ** Strings *)

Lemma sub_class_escape s :
  sub_class [quote_char; backslash_char] [RChar backslash_char; RGroup1] s
  = flat_map escape_char s.
Proof.
  induction s as [| c s IH]; [reflexivity |].
  cbn [sub_class flat_map]. rewrite IH. f_equal.
  unfold escape_char. cbn [existsb].
  destruct (c =? quote_char)%N, (c =? backslash_char)%N; reflexivity.
Qed.

(** C3 -- Strings.  A string is encoded as itself between double quotes,
    with a backslash put before each double quote and each backslash;
    every other character, whatever its code point, is copied as it
    is. *)
Theorem string_encoding (s : pystr) :
  (forall W (w : W),
     encode_canonical (PStr s) None w
     = (w, Return (Some ([quote_char] ++ flat_map escape_char s
                         ++ [quote_char])))) /\
  (forall c : N,
     (c = quote_char \/ c = backslash_char) /\
       escape_char c = [backslash_char; c]
     \/ c <> quote_char /\ c <> backslash_char /\ escape_char c = [c]).
Proof.
  split.
  - intros W w. rewrite encode_canonical_buffered.
    unfold ending, emitted, join_empty. cbn [trace_of].
    unfold _canonical_string_encoder, re_sub, obind.
    rewrite sub_class_escape. cbn [temit fst snd List.concat].
    now rewrite app_nil_r.
  - intros c. unfold escape_char.
    destruct (N.eqb_spec c quote_char) as [-> | Hq]; [left; auto |].
    destruct (N.eqb_spec c backslash_char) as [-> | Hb]; [left; auto |].
    right. auto.
Qed.

(** The example of the specification: the five characters a, double
    quote, b, backslash, c. *)
Example string_encoding_example :
  run_buffered (PStr [97; quote_char; 98; backslash_char; 99]%N)
  = Return (Some [quote_char; 97; backslash_char; quote_char; 98;
                  backslash_char; backslash_char; 99; quote_char]%N).
Proof. reflexivity. Qed.

(* ================================================================== *)
(** ** Integers *)

Lemma uint_chars_digits d : forallb is_digit (uint_chars d) = true.
Proof. induction d; simpl; auto. Qed.

Lemma uint_chars_value_acc d acc :
  fold_left (fun a c => 10 * a + (Z.of_N c - 48))%Z (uint_chars d) (Z.pos acc)
  = Z.pos (Pos.of_uint_acc d acc).
Proof.
  revert acc. induction d; intros acc; [reflexivity | ..];
    cbn [uint_chars NilEmpty.string_of_uint lit list_ascii_of_string map
         fold_left Pos.of_uint_acc];
    fold (lit (NilEmpty.string_of_uint d)); fold (uint_chars d);
    rewrite <- IHd; f_equal; simpl (Z.of_N _); lia.
Qed.

Lemma uint_chars_value d : decimal_value (uint_chars d) = Z.of_N (Pos.of_uint d).
Proof.
  unfold decimal_value. induction d; [reflexivity | exact IHd | ..];
    cbn [uint_chars NilEmpty.string_of_uint lit list_ascii_of_string map
         fold_left Pos.of_uint];
    fold (lit (NilEmpty.string_of_uint d)); fold (uint_chars d);
    cbn [Z.of_N]; rewrite <- uint_chars_value_acc; reflexivity.
Qed.

Lemma to_uint_no_leading_zero p d : Pos.to_uint p <> Decimal.D0 d.
Proof.
  intros H.
  assert (Hn : Decimal.unorm (Pos.to_uint p) = Pos.to_uint p).
  { rewrite <- (DecimalPos.Unsigned.to_of (Pos.to_uint p)).
    now rewrite DecimalPos.Unsigned.of_to. }
  rewrite H in Hn. rewrite DecimalFacts.unorm_D0 in Hn.
  unfold Decimal.unorm in Hn.
  destruct (Decimal.nzhead d) as [| u | u | u | u | u | u | u | u | u | u]
    eqn:Hd; try discriminate.
  - injection Hn as <-. now apply (DecimalPos.Unsigned.to_uint_nonzero p).
  - exact (DecimalFacts.nzhead_nonzero d u Hd).
Qed.

Lemma str_int_pos p :
  str_int (Z.pos p) = uint_chars (Pos.to_uint p).
Proof.
  unfold str_int, uint_chars. cbn [Z.to_int NilZero.string_of_int].
  unfold NilZero.string_of_uint.
  destruct (Pos.to_uint p) eqn:H; try reflexivity.
  now apply DecimalPos.Unsigned.to_uint_nonnil in H.
Qed.

Lemma str_int_neg p :
  str_int (Z.neg p) = lit "-" ++ uint_chars (Pos.to_uint p).
Proof.
  unfold str_int, uint_chars. cbn [Z.to_int NilZero.string_of_int].
  unfold NilZero.string_of_uint.
  destruct (Pos.to_uint p) eqn:H; try reflexivity.
  now apply DecimalPos.Unsigned.to_uint_nonnil in H.
Qed.

Lemma pos_digits p :
  let digits := uint_chars (Pos.to_uint p) in
  digits <> [] /\ forallb is_digit digits = true /\
  (digits = lit "0" \/ hd 0%N digits <> 48%N) /\
  decimal_value digits = Z.pos p.
Proof.
  cbv zeta. split; [| split; [| split]].
  - destruct (Pos.to_uint p) eqn:H; try discriminate.
    now apply DecimalPos.Unsigned.to_uint_nonnil in H.
  - apply uint_chars_digits.
  - right. destruct (Pos.to_uint p) eqn:H; try discriminate.
    now apply to_uint_no_leading_zero in H.
  - rewrite uint_chars_value. now rewrite DecimalPos.Unsigned.of_to.
Qed.

(** C7 -- Integers.  An integer is encoded as a minus sign when it is
    negative, then its decimal digits: at least one, nothing but digits,
    no leading zero except for the numeral 0 itself, and denoting exactly
    the absolute value, however large.  So there is no plus sign and no
    exponent; and minus zero, being zero, is encoded as 0. *)
Theorem integer_encoding (n : Z) :
  (exists digits : pystr,
     run_buffered (PInt n)
     = Return (Some ((if (n <? 0)%Z then lit "-" else []) ++ digits)) /\
     digits <> [] /\
     forallb is_digit digits = true /\
     (digits = lit "0" \/ hd 0%N digits <> 48%N) /\
     decimal_value digits = Z.abs n) /\
  run_buffered (PInt (- 0)) = Return (Some (lit "0")).
Proof.
  split; [| reflexivity].
  unfold run_buffered. rewrite encode_canonical_buffered.
  unfold ending, emitted, join_empty.
  cbn [trace_of temit fst snd List.concat]. rewrite app_nil_r.
  destruct n as [| p | p].
  - exists (lit "0"). repeat split; auto. discriminate.
  - exists (uint_chars (Pos.to_uint p)). rewrite str_int_pos.
    split; [reflexivity | apply pos_digits].
  - exists (uint_chars (Pos.to_uint p)). rewrite str_int_neg.
    split; [reflexivity | apply pos_digits].
Qed.

Example integer_encoding_large :
  run_buffered (PInt (-123456789012345678901234567890))
  = Return (Some (lit "-123456789012345678901234567890")).
Proof. reflexivity. Qed.

(* ================================================================== *)
(** ** The order of the keys *)

Lemma str_ltb_asym a b : str_ltb a b = true -> str_ltb b a = false.
Proof.
  revert b. induction a as [| x a IH]; intros [| y b]; simpl; try easy.
  destruct (N.ltb_spec x y), (N.ltb_spec y x); try lia; try easy.
  apply IH.
Qed.

Lemma str_ltb_neg_trans a b c :
  str_ltb a b = false -> str_ltb b c = false -> str_ltb a c = false.
Proof.
  revert b c. induction a as [| x a IH]; intros [| y b] [| z c]; simpl;
    try easy.
  destruct (N.ltb_spec x y), (N.ltb_spec y x), (N.ltb_spec y z),
    (N.ltb_spec z y), (N.ltb_spec x z), (N.ltb_spec z x);
    try lia; try easy.
  apply IH.
Qed.

Lemma key_lt_str (a b : pykey) :
  is_str_key a = true -> is_str_key b = true ->
  key_lt a b = Return (str_ltb (key_text a) (key_text b)).
Proof. destruct a, b; simpl; try discriminate. reflexivity. Qed.

Section SortedOrder.
Variable V : Type.
Implicit Types (x y : pykey * V) (l : list (pykey * V)).

Local Abbreviation str_keyed := (Forall (fun y => is_str_key (fst y) = true)).

Lemma insert_item_sorted x l l' :
  str_keyed (x :: l) ->
  StronglySorted not_after l ->
  insert_item x l = Return l' ->
  StronglySorted not_after l'.
Proof.
  revert l'. induction l as [| y l IH]; intros l' Hk Hs; simpl.
  - intros H. injection H as <-. repeat constructor.
  - inversion Hk as [| ? ? Hx Hyl]; subst.
    inversion Hyl as [| ? ? Hy Hl]; subst.
    inversion Hs as [| ? ? Hsl Hall]; subst.
    rewrite (key_lt_str _ _ Hy Hx).
    destruct (str_ltb (key_text (fst y)) (key_text (fst x))) eqn:Hlt;
      simpl.
    + destruct (insert_item x l) as [r |] eqn:Hr; simpl; [| discriminate].
      intros H. injection H as <-. constructor.
      * apply (IH r); [constructor |..]; auto.
      * eapply Permutation_Forall;
          [apply insert_item_permutation, Hr |].
        constructor; [| exact Hall].
        now apply str_ltb_asym.
    + intros H. injection H as <-. constructor; [exact Hs |].
      constructor; [exact Hlt |].
      eapply Forall_impl; [| exact Hall].
      intros z Hz. unfold not_after in *.
      now apply str_ltb_neg_trans with (key_text (fst y)).
Qed.

Lemma sorted_sorted l l' :
  str_keyed l -> sorted l = Return l' -> StronglySorted not_after l'.
Proof.
  revert l'. induction l as [| x l IH]; intros l' Hk; simpl.
  - intros H. injection H as <-. constructor.
  - inversion Hk as [| ? ? Hx Hl]; subst.
    destruct (sorted l) as [r |] eqn:Hr; simpl; [| discriminate].
    apply insert_item_sorted; [| now apply IH].
    constructor; [exact Hx |].
    eapply Permutation_Forall; [apply sorted_permutation, Hr | exact Hl].
Qed.

(** There is one way to put items with distinct keys in order. *)
Lemma sorted_unique l1 l2 :
  StronglySorted before l1 ->
  StronglySorted not_after l2 ->
  Permutation l1 l2 ->
  l1 = l2.
Proof.
  revert l2. induction l1 as [| x l1 IH]; intros l2 H1 H2 Hp.
  - now apply Permutation_nil in Hp.
  - destruct l2 as [| y l2].
    { now apply Permutation_sym, Permutation_nil in Hp. }
    inversion H1 as [| ? ? Hs1 Hall1]; subst.
    inversion H2 as [| ? ? Hs2 Hall2]; subst.
    assert (Hxy : x = y).
    { assert (Hx : In x (y :: l2)).
      { eapply Permutation_in; [exact Hp | now left]. }
      assert (Hy : In y (x :: l1)).
      { eapply Permutation_in; [apply Permutation_sym, Hp | now left]. }
      destruct Hx as [-> | Hx]; [reflexivity |].
      destruct Hy as [-> | Hy]; [reflexivity |].
      rewrite Forall_forall in Hall1, Hall2.
      specialize (Hall1 y Hy). specialize (Hall2 x Hx).
      unfold before, not_after in *. congruence. }
    subst y. f_equal. apply IH; try assumption.
    now apply Permutation_cons_inv with x.
Qed.

(** [sorted] finds the ordered arrangement, whatever the order of
    insertion. *)
Lemma sorted_finds l items :
  str_keyed l ->
  Permutation l items ->
  StronglySorted before items ->
  sorted l = Return items.
Proof.
  intros Hk Hp Hs.
  destruct (sorted_return Hk) as [r Hr].
  rewrite Hr. f_equal. symmetry. apply sorted_unique.
  - exact Hs.
  - now apply sorted_sorted with l.
  - apply perm_trans with l; [now apply Permutation_sym |].
    now apply sorted_permutation.
Qed.
End SortedOrder.

(* ================================================================== *)
(** ** Mappings *)

Lemma tseq_ok t1 t2 :
  snd t1 = Return tt -> tseq t1 t2 = (fst t1 ++ fst t2, snd t2).
Proof. intros H. unfold tseq. now rewrite H. Qed.

Lemma joined_text ts :
  Forall (fun t => snd t = Return tt) ts ->
  join_empty (fst (joined ts))
  = join_with (lit ",") (map (fun t => join_empty (fst t)) ts).
Proof.
  unfold join_empty.
  induction 1 as [| t ts Ht Hts IH]; [reflexivity |].
  destruct ts as [| t' ts]; [reflexivity |].
  change (joined (t :: t' :: ts))
    with (tseq t (tseq (temit (lit ",")) (joined (t' :: ts)))).
  rewrite (tseq_ok t _ Ht), tseq_ok by reflexivity.
  cbn [fst temit]. rewrite concat_app. cbn [List.concat app].
  rewrite IH. reflexivity.
Qed.

Lemma canonical_string_text s :
  _canonical_string_encoder (KStr s) = Return (string_text s).
Proof.
  unfold _canonical_string_encoder, re_sub, obind, string_text.
  now rewrite sub_class_escape.
Qed.

Lemma entry_trace_text (k : pykey) (t : trace) :
  is_str_key k = true ->
  snd t = Return tt ->
  join_empty (fst (entry_trace (k, t)))
  = string_text (key_text k) ++ lit ":" ++ join_empty (fst t).
Proof.
  intros Hk Ht. destruct k as [s | |]; try discriminate.
  unfold entry_trace. cbn [fst snd key_text].
  rewrite canonical_string_text.
  rewrite !tseq_ok by reflexivity.
  unfold join_empty. cbn [fst temit]. rewrite !concat_app.
  cbn [List.concat]. now rewrite !app_nil_r.
Qed.

Lemma mapping_text (entries items : list (pykey * trace)) :
  sorted entries = Return items ->
  Forall (fun y => is_str_key (fst y) = true /\ snd (snd y) = Return tt)
         items ->
  join_empty (fst (mapping_trace entries))
  = lit "{"
    ++ join_with (lit ",")
         (map (fun y => string_text (key_text (fst y)) ++ lit ":"
                        ++ join_empty (fst (snd y))) items)
    ++ lit "}".
Proof.
  intros Hs Hall. unfold mapping_trace.
  assert (Hj : snd (joined (map entry_trace items)) = Return tt).
  { apply joined_return, Forall_map.
    eapply Forall_impl; [| exact Hall].
    intros [k t] [Hk Ht]. rewrite entry_trace_ending.
    destruct k; try discriminate. exact Ht. }
  assert (Hbody :
    (if (0 <? List.length entries)%nat
     then match sorted entries with
          | Return items0 => joined (map entry_trace items0)
          | Raise e => tfail e
          end
     else tdone) = joined (map entry_trace items)).
  { destruct entries as [| x entries].
    - simpl in Hs. injection Hs as <-. reflexivity.
    - change (0 <? List.length (x :: entries))%nat with true.
      cbv iota. now rewrite Hs. }
  rewrite Hbody. rewrite tseq_ok by reflexivity.
  rewrite (tseq_ok _ _ Hj). unfold join_empty in *.
  cbn [fst temit]. rewrite !concat_app. cbn [List.concat].
  rewrite app_nil_r. f_equal. f_equal.
  pose proof (@joined_text (map entry_trace items)) as Ht.
  unfold join_empty in Ht. rewrite Ht.
  - rewrite map_map. f_equal. apply map_ext_Forall.
    eapply Forall_impl; [| exact Hall].
    intros [k t] [Hk Hv]. now apply entry_trace_text.
  - apply Forall_map. eapply Forall_impl; [| exact Hall].
    intros [k t] [Hk Hv]. rewrite entry_trace_ending.
    destruct k; try discriminate. exact Hv.
Qed.

Lemma text_of_closed value :
  closed_kind value = true -> text_of value = join_empty (emitted value).
Proof.
  intros H. unfold text_of, run_buffered.
  rewrite encode_canonical_buffered. simpl.
  now rewrite (ending_closed _ H).
Qed.

Lemma before_map V1 V2 (f : V1 -> V2) (items : list (pykey * V1)) :
  StronglySorted before items ->
  StronglySorted before (map (fun kv => (fst kv, f (snd kv))) items).
Proof.
  induction 1 as [| x items Hs IH Hall]; simpl; constructor; [exact IH |].
  apply Forall_map. eapply Forall_impl; [| exact Hall].
  intros y Hy. exact Hy.
Qed.

(** C2 -- Mappings.  A mapping is encoded as an opening brace, its
    entries, each the quoted key, a colon and the encoded value, joined
    by commas, and a closing brace.  The entries come in the order of
    their raw keys, compared code point by code point, whatever the order
    of insertion: [items] is any arrangement of the entries of [d] in
    that order.  The empty mapping gives the two braces, and the mapping
    of y to 2 and x to 3 gives x before y. *)
Theorem mapping_encoding (d items : list (pykey * pyval)) :
  closed_kind (PDict d) = true ->
  Permutation d items ->
  StronglySorted before items ->
  run_buffered (PDict d)
  = Return (Some (lit "{" ++ join_with (lit ",") (map entry_text items)
                  ++ lit "}"))
  /\ run_buffered (PDict []) = Return (Some (lit "{}"))
  /\ run_buffered (PDict y2_x3)
     = Return (Some (lit "{" ++ quoted "x" ++ lit ":3," ++ quoted "y"
                     ++ lit ":2}")).
Proof.
  intros Hc Hp Hs. split; [| split; reflexivity].
  assert (Hd : Forall (fun kv => is_str_key (fst kv) = true /\
                                 closed_kind (snd kv) = true) d).
  { cbn [closed_kind] in Hc. rewrite forallb_forall in Hc.
    apply Forall_forall. intros kv Hin.
    now apply andb_true_iff, Hc. }
  unfold run_buffered. rewrite encode_canonical_buffered.
  rewrite (ending_closed _ Hc). cbn [snd]. do 2 f_equal.
  unfold emitted. cbn [trace_of].
  set (g := fun kv : pykey * pyval => (fst kv, trace_of (snd kv))).
  rewrite (@mapping_text (map g d) (map g items)).
  - rewrite map_map. do 3 f_equal. apply map_ext_Forall.
    eapply Permutation_Forall; [exact Hp |].
    eapply Forall_impl; [| exact Hd].
    intros [k v] [Hk Hv]. unfold entry_text. cbn [g fst snd] in *.
    now rewrite (text_of_closed _ Hv).
  - apply sorted_finds.
    + apply Forall_map. eapply Forall_impl; [| exact Hd].
      now intros [k v] [Hk _].
    + now apply Permutation_map.
    + now apply before_map.
  - apply Forall_map. eapply Permutation_Forall; [exact Hp |].
    eapply Forall_impl; [| exact Hd].
    intros [k v] [Hk Hv]. cbn [g fst snd] in *.
    split; [exact Hk | exact (ending_closed _ Hv)].
Qed.

Lemma mapping_encoding_witness :
  closed_kind (PDict y2_x3) = true /\
  Permutation y2_x3 x3_y2 /\
  StronglySorted before x3_y2 /\
  run_buffered (PDict y2_x3)
  = Return (Some (lit "{" ++ join_with (lit ",") (map entry_text x3_y2)
                  ++ lit "}")).
Proof.
  assert (Hp : Permutation y2_x3 x3_y2) by apply perm_swap.
  assert (Hs : StronglySorted before x3_y2).
  { repeat constructor. }
  split; [reflexivity |]. split; [exact Hp |]. split; [exact Hs |].
  exact (proj1 (mapping_encoding (d := y2_x3) eq_refl Hp Hs)).
Defined.

(* ================================================================== *)
(** * Further results *)

(** ** Sequences *)

Lemma sequence_text ts :
  Forall (fun t => snd t = Return tt) ts ->
  join_empty (fst (sequence_trace ts))
  = lit "[" ++ join_with (lit ",") (map (fun t => join_empty (fst t)) ts)
    ++ lit "]".
Proof.
  intros H. unfold sequence_trace.
  rewrite tseq_ok by reflexivity.
  rewrite (tseq_ok _ _ (joined_return H)).
  pose proof (joined_text H) as Ht. unfold join_empty in *.
  cbn [fst temit]. rewrite !concat_app. cbn [List.concat].
  now rewrite app_nil_r, Ht.
Qed.

Lemma closed_elements l :
  forallb closed_kind l = true ->
  Forall (fun v => closed_kind v = true) l.
Proof. intros H. apply Forall_forall. now apply forallb_forall. Qed.

Lemma sequence_text_of l :
  forallb closed_kind l = true ->
  join_empty (fst (sequence_trace (map trace_of l)))
  = lit "[" ++ join_with (lit ",") (map text_of l) ++ lit "]".
Proof.
  intros H. apply closed_elements in H. rewrite sequence_text.
  - rewrite map_map. do 3 f_equal. apply map_ext_Forall.
    eapply Forall_impl; [| exact H].
    intros v Hv. now rewrite (text_of_closed _ Hv).
  - apply Forall_map. eapply Forall_impl; [| exact H].
    intros v Hv. exact (ending_closed _ Hv).
Qed.

(** X1 -- Sequences.  A list of encodable values is encoded as an
    opening bracket, the encodings of its elements in their order, joined
    by commas, and a closing bracket; a tuple is encoded as the list of
    the same elements. *)
Theorem sequence_encoding (l : list pyval) :
  closed_kind (PList l) = true ->
  run_buffered (PList l)
  = Return (Some (lit "[" ++ join_with (lit ",") (map text_of l)
                  ++ lit "]"))
  /\ run_buffered (PTuple l) = run_buffered (PList l).
Proof.
  intros H. unfold run_buffered. rewrite !encode_canonical_buffered.
  assert (Ht : closed_kind (PTuple l) = true) by exact H.
  rewrite (ending_closed _ H), (ending_closed _ Ht).
  unfold emitted. cbn [trace_of snd]. split; [| reflexivity].
  do 2 f_equal. now apply sequence_text_of.
Qed.

Lemma sequence_encoding_witness :
  closed_kind (PList [PInt 1; PStr (lit "a"); PNone]) = true /\
  run_buffered (PList [PInt 1; PStr (lit "a"); PNone])
  = Return (Some (lit "[" ++ join_with (lit ",")
                    (map text_of [PInt 1; PStr (lit "a"); PNone])
                  ++ lit "]"))
  /\ run_buffered (PTuple [PInt 1; PStr (lit "a"); PNone])
     = run_buffered (PList [PInt 1; PStr (lit "a"); PNone]).
Proof.
  split; [reflexivity |].
  apply (sequence_encoding [PInt 1; PStr (lit "a"); PNone]). reflexivity.
Defined.

(* ================================================================== *)
(** ** Failures *)

Lemma joined_cons (t : trace) rest :
  rest <> [] ->
  joined (t :: rest) = tseq t (tseq (temit (lit ",")) (joined rest)).
Proof. destruct rest; [easy | reflexivity]. Qed.

Lemma joined_first_failure (pre : list trace) (t : trace) post e :
  Forall (fun t' => snd t' = Return tt) pre ->
  snd t = Raise e ->
  joined (pre ++ t :: post)
  = (flat_map (fun t' => fst t' ++ [lit ","]) pre ++ fst t, Raise e).
Proof.
  unfold trace in *. intros Hpre Ht.
  induction Hpre as [| p pre Hp Hpre IH].
  - simpl. destruct post as [| q post].
    + destruct t as [f r]. simpl in *. now subst.
    + unfold tseq. now rewrite Ht.
  - rewrite <- app_comm_cons.
    rewrite joined_cons by now destruct pre.
    rewrite (tseq_ok p _ Hp), tseq_ok by reflexivity.
    rewrite IH. cbn [fst snd temit flat_map].
    now rewrite <- !app_assoc.
Qed.

(** X2 -- The first failure of a list.  When the elements before [x] can
    be encoded and the encode of [x] raises [e], the encode of the list
    raises [e] too: by then the callable has received the opening
    bracket, each earlier element followed by a comma, and what [x] wrote
    before it failed; of the elements after [x] it receives nothing. *)
Theorem sequence_first_failure (pre post : list pyval) (x : pyval)
    (frags : list pystr) (e : exn) :
  forallb closed_kind pre = true ->
  _encode_canonical recorder x [] = (frags, Raise e) ->
  _encode_canonical recorder (PList (pre ++ x :: post)) []
  = ([lit "["] ++ flat_map (fun v => written v ++ [lit ","]) pre ++ frags,
     Raise e).
Proof.
  intros Hpre Hx. rewrite run_recorder in Hx. rewrite run_recorder.
  injection Hx as Hf He. unfold emitted, ending in *.
  cbn [trace_of]. unfold sequence_trace. rewrite map_app. cbn [map].
  rewrite (@joined_first_failure (map trace_of pre) (trace_of x)
             (map trace_of post) e).
  - unfold tseq. cbn [fst snd temit app]. rewrite Hf.
    do 3 f_equal. rewrite flat_map_concat_map, map_map.
    rewrite flat_map_concat_map. f_equal.
    apply map_ext. intros v. now rewrite written_emitted.
  - apply Forall_map. apply closed_elements in Hpre.
    eapply Forall_impl; [| exact Hpre].
    intros v Hv. exact (ending_closed _ Hv).
  - exact He.
Qed.

Lemma sequence_first_failure_witness :
  forallb closed_kind [PInt 1; PStr (lit "a")] = true /\
  _encode_canonical recorder (PList [PNone; half]) []
  = ([lit "["; lit "null"; lit ","],
     Raise (FormatError [Lit "I cannot encode "; Repr half])) /\
  _encode_canonical recorder
    (PList ([PInt 1; PStr (lit "a")] ++ PList [PNone; half] :: [PInt 7])) []
  = ([lit "["]
     ++ flat_map (fun v => written v ++ [lit ","]) [PInt 1; PStr (lit "a")]
     ++ [lit "["; lit "null"; lit ","],
     Raise (FormatError [Lit "I cannot encode "; Repr half])).
Proof.
  split; [reflexivity |]. split; [reflexivity |].
  apply (sequence_first_failure [PInt 1; PStr (lit "a")] [PInt 7]
           (PList [PNone; half])); reflexivity.
Defined.

(** The keys of a list that [sorted] accepts are all strings or none of
    them is. *)
Lemma insert_item_same_class V (x : pykey * V) l l' :
  insert_item x l = Return l' ->
  match l with
  | [] => True
  | y :: _ => is_str_key (fst y) = is_str_key (fst x)
  end.
Proof.
  destruct l as [| y l]; [trivial |]. simpl.
  destruct (fst y), (fst x); simpl; try discriminate; reflexivity.
Qed.

Lemma sorted_same_class V (l l' : list (pykey * V)) :
  sorted l = Return l' ->
  forall a b, In a l' -> In b l' -> is_str_key (fst a) = is_str_key (fst b).
Proof.
  revert l'. induction l as [| x l IH]; simpl; intros l' H.
  - injection H as <-. intros a b [].
  - destruct (sorted l) as [r |] eqn:Hr; simpl in H; [| discriminate].
    pose proof (insert_item_same_class _ _ H) as Hc.
    pose proof (insert_item_permutation _ _ H) as Hp.
    assert (Hall : forall a, In a (x :: r) ->
                             is_str_key (fst a) = is_str_key (fst x)).
    { intros a [<- | Ha]; [reflexivity |].
      destruct r as [| y r]; [destruct Ha |].
      rewrite <- Hc. apply (IH _ eq_refl); [exact Ha | now left]. }
    intros a b Ha Hb.
    apply (Permutation_in _ (Permutation_sym Hp)) in Ha, Hb.
    now rewrite (Hall a Ha), (Hall b Hb).
Qed.

Lemma joined_head_fails (t : trace) ts e :
  t = tfail e -> joined (t :: ts) = tfail e.
Proof. intros ->. now destruct ts. Qed.

Lemma existsb_map_compose A B (f : A -> B) (p : B -> bool) l :
  existsb p (map f l) = existsb (fun x => p (f x)) l.
Proof. induction l as [| x l IH]; simpl; [reflexivity | now rewrite IH]. Qed.

Lemma mapping_trace_bad_key (entries : list (pykey * trace)) :
  existsb (fun y => negb (is_str_key (fst y))) entries = true ->
  exists m, mapping_trace entries = ([lit "{"], Raise (TypeError m)).
Proof.
  intros H. apply existsb_exists in H. destruct H as [bad [Hin Hbad]].
  apply negb_true_iff in Hbad. unfold mapping_trace.
  destruct entries as [| x entries]; [destruct Hin |].
  change (0 <? List.length (x :: entries))%nat with true. cbv iota.
  destruct (sorted (x :: entries)) as [items | e] eqn:Hs.
  - pose proof (sorted_permutation _ Hs) as Hp.
    destruct items as [| [k t] items].
    { now apply Permutation_sym, Permutation_nil in Hp. }
    assert (Hk : is_str_key k = false).
    { rewrite <- Hbad.
      apply (sorted_same_class _ Hs (k, t) bad); [now left |].
      now apply (Permutation_in _ Hp). }
    exists [Lit "expected string or bytes-like object"].
    cbn [map]. rewrite (@joined_head_fails (entry_trace (k, t)) _
      (TypeError [Lit "expected string or bytes-like object"])).
    + reflexivity.
    + unfold entry_trace. destruct k; try discriminate; reflexivity.
  - destruct (sorted_raise _ Hs) as [[m ->] _]. exists m. reflexivity.
Qed.

(** X3 -- Keys that are not strings.  When some key of a mapping is not
    a string, the encode fails before any entry is written: the callable
    receives the opening brace and nothing more, a [TypeError] is raised
    inside, and [encode_canonical] turns it into its [FormatError]. *)
Theorem non_string_key_rejected (d : list (pykey * pyval)) :
  existsb (fun kv => negb (is_str_key (fst kv))) d = true ->
  exists m : text,
    (forall received,
       _encode_canonical recorder (PDict d) received
       = (received ++ [lit "{"], Raise (TypeError m))) /\
    (forall W (w : W),
       encode_canonical (PDict d) None w
       = (w, Raise (FormatError ([Lit "Could not encode "; Repr (PDict d);
                                  Lit ": "] ++ m)))).
Proof.
  intros H.
  destruct (@mapping_trace_bad_key
              (map (fun kv => (fst kv, trace_of (snd kv))) d)) as [m Hm].
  { rewrite existsb_map_compose. exact H. }
  exists m. split.
  - intros received. rewrite run_recorder. unfold emitted, ending.
    cbn [trace_of]. now rewrite Hm.
  - intros W w. rewrite encode_canonical_buffered. unfold ending.
    cbn [trace_of]. now rewrite Hm.
Qed.

Lemma non_string_key_rejected_witness :
  existsb (fun kv => negb (is_str_key (fst kv)))
          [(KStr (lit "a"), PInt 1); (KInt 2, PInt 3)] = true /\
  exists m : text,
    (forall received,
       _encode_canonical recorder
         (PDict [(KStr (lit "a"), PInt 1); (KInt 2, PInt 3)]) received
       = (received ++ [lit "{"], Raise (TypeError m))) /\
    (forall W (w : W),
       encode_canonical
         (PDict [(KStr (lit "a"), PInt 1); (KInt 2, PInt 3)]) None w
       = (w, Raise (FormatError
                      ([Lit "Could not encode ";
                        Repr (PDict [(KStr (lit "a"), PInt 1);
                                     (KInt 2, PInt 3)]);
                        Lit ": "] ++ m)))).
Proof.
  split; [reflexivity |].
  apply (non_string_key_rejected
           [(KStr (lit "a"), PInt 1); (KInt 2, PInt 3)]).
  reflexivity.
Defined.

Lemma first_call_raises W A (c : M W unit) (k : unit -> M W A) w e :
  snd (c w) = Raise e -> bind c k w = (fst (c w), Raise e).
Proof.
  unfold bind. destruct (c w) as [w' r]. simpl. now intros ->.
Qed.

Lemma raises_at_first_fragment W (f : callable W) e object w :
  (forall frag w', snd (f frag w') = Raise e) ->
  unsupported object = false ->
  exists frag,
    hd_error (written object) = Some frag /\
    _encode_canonical f object w = (fst (f frag w), Raise e).
Proof.
  intros H Hu.
  assert (Hf : forall frag, f frag w = (fst (f frag w), Raise e)).
  { intros frag. rewrite <- (H frag w). now destruct (f frag w). }
  destruct object as [s | [|] | | n | x | l | l | d | c];
    try discriminate.
  - exists (string_text s). split.
    + rewrite written_emitted. unfold emitted. cbn [trace_of].
      now rewrite canonical_string_text.
    + cbn [_encode_canonical]. rewrite canonical_string_text.
      unfold bind, lift. apply Hf.
  - exists (lit "true"). split; [reflexivity | apply Hf].
  - exists (lit "false"). split; [reflexivity | apply Hf].
  - exists (lit "null"). split; [reflexivity | apply Hf].
  - exists (str_int n). split; [reflexivity | apply Hf].
  - exists (lit "["). split; [now rewrite written_emitted |].
    cbn [_encode_canonical]. unfold encode_sequence.
    apply first_call_raises, H.
  - exists (lit "["). split; [now rewrite written_emitted |].
    cbn [_encode_canonical]. unfold encode_sequence.
    apply first_call_raises, H.
  - exists (lit "{"). split; [now rewrite written_emitted |].
    cbn [_encode_canonical]. unfold encode_mapping.
    apply first_call_raises, H.
Qed.

(** X4 -- An output function that raises.  When every call of
    [output_function] raises [e], whatever else the call does, the
    encode of a value the encoder has a branch for calls it once, with
    the first fragment, and ends there, the world being as that call left
    it: a [TypeError] (the object given is not callable) or a
    [FormatError] comes out as the [FormatError] of [encode_canonical],
    any other exception comes out as it is.  A value without a branch is
    refused before the callable is used. *)
Theorem raising_output_function (W : Type) (f : callable W) (e : exn)
    (object : pyval) (w : W) :
  (forall frag w', snd (f frag w') = Raise e) ->
  if unsupported object
  then encode_canonical object (Some f) w
       = (w, Raise (could_not_encode object
                      (FormatError [Lit "I cannot encode "; Repr object])))
  else exists frag,
         hd_error (written object) = Some frag /\
         encode_canonical object (Some f) w
         = (fst (f frag w),
            Raise (match e with
                   | OtherError _ _ => e
                   | _ => could_not_encode object e
                   end)).
Proof.
  intros H. destruct (unsupported object) eqn:Hu.
  - destruct object; try discriminate; reflexivity.
  - destruct (raises_at_first_fragment f object w H Hu) as [frag [Hh Hr]].
    exists frag. split; [exact Hh |].
    unfold encode_canonical, bind, try_except. rewrite Hr.
    destruct e; reflexivity.
Qed.

Lemma raising_output_function_witness :
  (forall frag w',
     snd (store_then_raise (OtherError "IOError" []) frag w')
     = Raise (OtherError "IOError" [])) /\
  exists frag,
    hd_error (written sample_role) = Some frag /\
    encode_canonical sample_role
      (Some (store_then_raise (OtherError "IOError" []))) []
    = (fst (store_then_raise (OtherError "IOError" []) frag []),
       Raise (OtherError "IOError" [])).
Proof.
  split; [reflexivity |].
  apply (@raising_output_function (list pystr)
           (store_then_raise (OtherError "IOError" []))
           (OtherError "IOError" []) sample_role []).
  reflexivity.
Defined.

(* ================================================================== *)
(** ** Sorting and the text of a mapping *)

Lemma str_ltb_total a b :
  str_ltb a b = false -> str_ltb b a = false -> a = b.
Proof.
  revert b. induction a as [| x a IH]; intros [| y b]; simpl; try easy.
  destruct (N.ltb_spec x y), (N.ltb_spec y x); try easy.
  intros Hab Hba. f_equal; [lia | now apply IH].
Qed.

Lemma insert_item_map V1 V2 (f : V1 -> V2) (x : pykey * V1) l :
  insert_item (fst x, f (snd x)) (map (fun kv => (fst kv, f (snd kv))) l)
  = obind (insert_item x l)
          (fun r => Return (map (fun kv => (fst kv, f (snd kv))) r)).
Proof.
  induction l as [| y l IH]; [reflexivity |].
  cbn [map insert_item fst snd].
  destruct (key_lt (fst y) (fst x)) as [[|] |]; cbn [obind];
    try reflexivity.
  rewrite IH. now destruct (insert_item x l).
Qed.

Lemma sorted_map V1 V2 (f : V1 -> V2) (l : list (pykey * V1)) :
  sorted (map (fun kv => (fst kv, f (snd kv))) l)
  = obind (sorted l)
          (fun r => Return (map (fun kv => (fst kv, f (snd kv))) r)).
Proof.
  induction l as [| x l IH]; [reflexivity |].
  cbn [map sorted]. rewrite IH.
  destruct (sorted l) as [r |]; cbn [obind]; [| reflexivity].
  apply insert_item_map.
Qed.

(** The text of a mapping, from what [sorted] makes of its items. *)
Lemma dict_text (d items : list (pykey * pyval)) :
  closed_kind (PDict d) = true ->
  sorted d = Return items ->
  text_of (PDict d)
  = lit "{" ++ join_with (lit ",") (map entry_text items) ++ lit "}".
Proof.
  intros Hc Hs. rewrite (text_of_closed _ Hc).
  assert (Hd : Forall (fun kv => is_str_key (fst kv) = true /\
                                 closed_kind (snd kv) = true) items).
  { eapply Permutation_Forall; [apply sorted_permutation, Hs |].
    cbn [closed_kind] in Hc. rewrite forallb_forall in Hc.
    apply Forall_forall. intros kv Hin. now apply andb_true_iff, Hc. }
  unfold emitted. cbn [trace_of].
  set (g := fun kv : pykey * pyval => (fst kv, trace_of (snd kv))).
  rewrite (@mapping_text (map g d) (map g items)).
  - rewrite map_map. do 3 f_equal. apply map_ext_Forall.
    eapply Forall_impl; [| exact Hd].
    intros [k v] [Hk Hv]. unfold entry_text. cbn [g fst snd] in *.
    now rewrite (text_of_closed _ Hv).
  - unfold g. rewrite sorted_map, Hs. reflexivity.
  - apply Forall_map. eapply Forall_impl; [| exact Hd].
    intros [k v] [Hk Hv]. cbn [g fst snd] in *.
    split; [exact Hk | exact (ending_closed _ Hv)].
Qed.

Lemma closed_dict d :
  closed_kind (PDict d) = true <->
  Forall (fun kv => is_str_key (fst kv) = true /\
                    closed_kind (snd kv) = true) d.
Proof.
  cbn [closed_kind]. rewrite forallb_forall, Forall_forall.
  split; intros H kv Hin; specialize (H kv Hin);
    now apply andb_true_iff.
Qed.

Lemma key_text_inj a b :
  is_str_key a = true -> is_str_key b = true ->
  key_text a = key_text b -> a = b.
Proof.
  destruct a, b; simpl; try discriminate. now intros _ _ ->.
Qed.

(** With distinct keys the order [sorted] produces is strict. *)
Lemma strictly_sorted V (l : list (pykey * V)) :
  Forall (fun y => is_str_key (fst y) = true) l ->
  NoDup (map fst l) ->
  StronglySorted not_after l ->
  StronglySorted before l.
Proof.
  intros Hk Hn Hs.
  induction Hs as [| x l Hs IH Hall]; [constructor |].
  inversion Hk as [| ? ? Hx Hkl]; subst.
  cbn [map] in Hn. inversion Hn as [| ? ? Hnin Hnl]; subst.
  constructor; [now apply IH |].
  rewrite Forall_forall in Hall, Hkl |- *. intros y Hy.
  specialize (Hall y Hy). unfold before, not_after in *.
  destruct (str_ltb (key_text (fst x)) (key_text (fst y))) eqn:E;
    [reflexivity |].
  exfalso. apply Hnin.
  rewrite (key_text_inj _ _ Hx (Hkl y Hy) (str_ltb_total _ _ E Hall)).
  now apply in_map.
Qed.

Lemma unique_keys_elements l :
  fold_right (fun x acc => unique_keys x /\ acc) True l ->
  Forall unique_keys l.
Proof.
  induction l as [| x l IH]; simpl; [constructor |].
  intros [Hx Hl]. constructor; auto.
Qed.

Lemma unique_keys_values (d : list (pykey * pyval)) :
  fold_right (fun kv acc => unique_keys (snd kv) /\ acc) True d ->
  Forall (fun kv => unique_keys (snd kv)) d.
Proof.
  induction d as [| x d IH]; simpl; [constructor |].
  intros [Hx Hd]. constructor; auto.
Qed.

Lemma same_keys V1 V2 (Q : V1 -> V2 -> Prop) l1 l2 :
  Forall2 (same_key Q) l1 l2 -> map fst l1 = map fst l2.
Proof.
  induction 1 as [| x y l1 l2 [Hk _] _ IH]; simpl; [reflexivity |].
  now rewrite Hk, IH.
Qed.

(* ================================================================== *)
(** ** Different strings and integers have different encodings *)

Lemma run_buffered_closed v :
  closed_kind v = true -> run_buffered v = Return (Some (text_of v)).
Proof.
  intros H. rewrite (text_of_closed _ H). unfold run_buffered.
  now rewrite encode_canonical_buffered, (ending_closed _ H).
Qed.

Lemma text_of_str s : text_of (PStr s) = string_text s.
Proof.
  rewrite text_of_closed by reflexivity.
  unfold emitted, join_empty. cbn [trace_of].
  rewrite canonical_string_text. cbn [temit fst List.concat].
  now rewrite app_nil_r.
Qed.

Lemma text_of_int n : text_of (PInt n) = str_int n.
Proof.
  rewrite text_of_closed by reflexivity.
  unfold emitted, join_empty. cbn [trace_of temit fst List.concat].
  now rewrite app_nil_r.
Qed.

Lemma escape_char_cases c :
  escape_char c = [backslash_char; c] /\
    (c = quote_char \/ c = backslash_char)
  \/ escape_char c = [c] /\ c <> quote_char /\ c <> backslash_char.
Proof.
  unfold escape_char.
  destruct (N.eqb_spec c quote_char) as [-> | Hq]; [left; auto |].
  destruct (N.eqb_spec c backslash_char) as [-> | Hb]; [left; auto |].
  right. auto.
Qed.

Lemma escape_injective s s' :
  flat_map escape_char s = flat_map escape_char s' -> s = s'.
Proof.
  revert s'. induction s as [| c s IH]; intros [| c' s']; cbn [flat_map].
  - reflexivity.
  - destruct (escape_char_cases c') as [[-> _] | [-> _]]; discriminate.
  - destruct (escape_char_cases c) as [[-> _] | [-> _]]; discriminate.
  - destruct (escape_char_cases c) as [[-> Hc] | [-> [Hq Hb]]],
      (escape_char_cases c') as [[-> Hc'] | [-> [Hq' Hb']]];
      cbn [app]; intros H.
    + injection H as -> H. f_equal. now apply IH.
    + injection H as <- H. now contradiction Hb'.
    + injection H as -> H. now contradiction Hb.
    + injection H as -> H. f_equal. now apply IH.
Qed.

(** X5 -- Strings are told apart.  Two strings with the same encoding
    are the same string: the escaping loses nothing. *)
Theorem string_encoding_injective (s s' : pystr) :
  run_buffered (PStr s) = run_buffered (PStr s') -> s = s'.
Proof.
  rewrite !run_buffered_closed, !text_of_str by reflexivity.
  unfold string_text. intros H. injection H as H.
  apply app_inv_tail in H. now apply escape_injective.
Qed.

Lemma string_encoding_injective_witness :
  run_buffered (PStr (lit "a\b")) = run_buffered (PStr [97; 92; 98]%N) /\
  lit "a\b" = [97; 92; 98]%N.
Proof.
  split; [reflexivity |].
  apply (@string_encoding_injective (lit "a\b") [97; 92; 98]%N).
  reflexivity.
Defined.

Lemma str_int_injective n m : str_int n = str_int m -> n = m.
Proof.
  assert (Hd : forall p, decimal_value (uint_chars (Pos.to_uint p))
                         = Z.pos p) by (intros p; apply pos_digits).
  assert (Hg : forall p, forallb is_digit (uint_chars (Pos.to_uint p))
                         = true) by (intros p; apply pos_digits).
  destruct n as [| p | p], m as [| q | q];
    rewrite ?str_int_pos, ?str_int_neg; intros H;
    try reflexivity.
  - apply (f_equal decimal_value) in H. rewrite Hd in H. discriminate.
  - change (str_int 0) with [48%N] in H. discriminate.
  - apply (f_equal decimal_value) in H. rewrite Hd in H. discriminate.
  - apply (f_equal decimal_value) in H. rewrite !Hd in H. exact H.
  - pose proof (Hg p) as G. rewrite H in G. discriminate.
  - change (str_int 0) with [48%N] in H. discriminate.
  - pose proof (Hg q) as G. rewrite <- H in G. discriminate.
  - injection H as H.
    apply (f_equal decimal_value) in H. rewrite !Hd in H.
    now injection H as ->.
Qed.

(** X6 -- Integers are told apart.  Two integers with the same encoding
    are the same integer. *)
Theorem integer_encoding_injective (n m : Z) :
  run_buffered (PInt n) = run_buffered (PInt m) -> n = m.
Proof.
  rewrite !run_buffered_closed, !text_of_int by reflexivity.
  intros H. injection H as H. now apply str_int_injective.
Qed.

Lemma integer_encoding_injective_witness :
  run_buffered (PInt (-12)) = run_buffered (PInt (3 - 15)) /\
  (-12 = 3 - 15)%Z.
Proof.
  split; [reflexivity |].
  apply (@integer_encoding_injective (-12) (3 - 15)). reflexivity.
Defined.

(* ================================================================== *)
(** ** What the output is made of *)

Lemma In_eqb (c : N) l : existsb (N.eqb c) l = true -> In c l.
Proof.
  intros H. apply existsb_exists in H. destruct H as [x [Hx E]].
  apply N.eqb_eq in E. now subst.
Qed.

Lemma all_own (s : pystr) :
  forallb (fun c => existsb (N.eqb c) own_chars) s = true ->
  forall c, In c s -> In c own_chars.
Proof.
  intros H c Hc. rewrite forallb_forall in H. now apply In_eqb, H.
Qed.

Lemma digit_own c : is_digit c = true -> In c own_chars.
Proof.
  unfold is_digit. intros H. apply andb_true_iff in H.
  destruct H as [Hlo Hhi]. apply N.leb_le in Hlo, Hhi.
  assert (E : (c = 48 \/ c = 49 \/ c = 50 \/ c = 51 \/ c = 52 \/ c = 53 \/
               c = 54 \/ c = 55 \/ c = 56 \/ c = 57)%N) by lia.
  repeat destruct E as [-> | E]; try subst c; apply In_eqb; reflexivity.
Qed.

Lemma str_int_own n c : In c (str_int n) -> In c own_chars.
Proof.
  assert (Hg : forall p c', In c' (uint_chars (Pos.to_uint p)) ->
                            In c' own_chars).
  { intros p c' Hc'. apply digit_own.
    pose proof (uint_chars_digits (Pos.to_uint p)) as G.
    rewrite forallb_forall in G. now apply G. }
  destruct n as [| p | p]; rewrite ?str_int_pos, ?str_int_neg.
  - now apply all_own.
  - apply Hg.
  - intros [<- | Hc]; [apply In_eqb; reflexivity | now apply Hg with p].
Qed.

Lemma in_join_with sep parts c :
  In c (join_with sep parts) ->
  In c sep \/ exists p, In p parts /\ In c p.
Proof.
  induction parts as [| p parts IH]; [intros [] |].
  destruct parts as [| q parts].
  - intros H. right. exists p. split; [now left | exact H].
  - cbn [join_with]. rewrite !in_app_iff. intros [H | [H | H]].
    + right. exists p. split; [now left | exact H].
    + now left.
    + destruct (IH H) as [Hs | [x [Hx Hc]]]; [now left |].
      right. exists x. split; [now right | exact Hc].
Qed.

Lemma string_text_chars s c :
  In c (string_text s) -> In c own_chars \/ In c s.
Proof.
  unfold string_text. rewrite !in_app_iff. intros [H | [H | H]].
  - left. destruct H as [<- | []]. apply In_eqb; reflexivity.
  - apply in_flat_map in H. destruct H as [x [Hx Hc]].
    destruct (escape_char_cases x) as [[E _] | [E _]]; rewrite E in Hc.
    + destruct Hc as [<- | [<- | []]];
        [left; apply In_eqb; reflexivity | now right].
    + destruct Hc as [<- | []]. now right.
  - left. destruct H as [<- | []]. apply In_eqb; reflexivity.
Qed.

Lemma list_text l :
  forallb closed_kind l = true ->
  text_of (PList l)
  = lit "[" ++ join_with (lit ",") (map text_of l) ++ lit "]".
Proof.
  intros H. rewrite text_of_closed by exact H.
  unfold emitted. cbn [trace_of]. now apply sequence_text_of.
Qed.

Lemma tuple_text l :
  forallb closed_kind l = true ->
  text_of (PTuple l)
  = lit "[" ++ join_with (lit ",") (map text_of l) ++ lit "]".
Proof.
  intros H. rewrite text_of_closed by exact H.
  unfold emitted. cbn [trace_of]. now apply sequence_text_of.
Qed.

Lemma sequence_chars l c :
  Forall (fun v => closed_kind v = true ->
                   forall c, In c (text_of v) ->
                             In c own_chars \/ In c (string_chars v)) l ->
  forallb closed_kind l = true ->
  In c (lit "[" ++ join_with (lit ",") (map text_of l) ++ lit "]") ->
  In c own_chars \/ In c (flat_map string_chars l).
Proof.
  intros IH Hc. rewrite !in_app_iff. intros [H | [H | H]].
  - left. revert H. now apply all_own.
  - apply in_join_with in H. destruct H as [H | [p [Hp H]]].
    + left. revert H. now apply all_own.
    + apply in_map_iff in Hp. destruct Hp as [v [<- Hv]].
      rewrite Forall_forall in IH. rewrite forallb_forall in Hc.
      destruct (IH v Hv (Hc v Hv) c H) as [Ho | Hs]; [now left |].
      right. apply in_flat_map. now exists v.
  - left. revert H. now apply all_own.
Qed.

(** X7 -- What the output is made of.  Every character of the encoding
    of a value is one the encoder writes of its own accord (a bracket, a
    brace, the comma, the colon, the minus sign, a digit, a letter of
    true, false and null, the double quote, the backslash) or a
    character of one of the strings or keys of the value.  So the
    encoder puts in no white space and no other separator. *)
Theorem output_characters (v : pyval) :
  closed_kind v = true ->
  forall c : N,
    In c (text_of v) -> In c own_chars \/ In c (string_chars v).
Proof.
  induction v as [s | [|] | | n | f | l IH | l IH | d IH | c0]
    using pyval_induction; intros Hc c Hin; try discriminate.
  - rewrite text_of_str in Hin. now apply string_text_chars.
  - left. revert Hin. now apply all_own.
  - left. revert Hin. now apply all_own.
  - left. revert Hin. now apply all_own.
  - left. rewrite text_of_int in Hin. now apply str_int_own with n.
  - rewrite list_text in Hin by exact Hc. now apply sequence_chars.
  - rewrite tuple_text in Hin by exact Hc. now apply sequence_chars.
  - destruct (@sorted_return _ d) as [items Hs].
    { apply closed_dict in Hc. eapply Forall_impl; [| exact Hc].
      now intros kv [Hk _]. }
    rewrite (@dict_text d items Hc Hs) in Hin.
    rewrite !in_app_iff in Hin. destruct Hin as [H | [H | H]].
    + left. revert H. now apply all_own.
    + apply in_join_with in H. destruct H as [H | [p [Hp H]]].
      { left. revert H. now apply all_own. }
      apply in_map_iff in Hp. destruct Hp as [kv [<- Hkv]].
      apply (Permutation_in _ (Permutation_sym (sorted_permutation _ Hs)))
        in Hkv.
      unfold entry_text in H. rewrite !in_app_iff in H.
      destruct H as [H | [H | H]].
      * apply string_text_chars in H. destruct H as [H | H]; [now left |].
        right. cbn [string_chars]. apply in_flat_map. exists kv.
        split; [exact Hkv |]. apply in_app_iff. now left.
      * left. revert H. now apply all_own.
      * rewrite Forall_forall in IH. apply closed_dict in Hc.
        rewrite Forall_forall in Hc. destruct (Hc kv Hkv) as [_ Hv].
        destruct (IH kv Hkv Hv c H) as [Ho | Hs']; [now left |].
        right. cbn [string_chars]. apply in_flat_map. exists kv.
        split; [exact Hkv |]. apply in_app_iff. now right.
    + left. revert H. now apply all_own.
Qed.

Lemma output_characters_witness :
  closed_kind sample_role = true /\
  In 84%N (text_of sample_role) /\
  (In 84%N own_chars \/ In 84%N (string_chars sample_role)).
Proof.
  assert (Hin : In 84%N (text_of sample_role))
    by (apply In_eqb; reflexivity).
  split; [reflexivity |]. split; [exact Hin |].
  exact (output_characters sample_role eq_refl 84%N Hin).
Defined.

(* ================================================================== *)
(** ** The envelope and its encoding *)

(** X8 -- The envelope is as encodable as its payload, and it has the
    envelope shape: what [make_signable] returns always carries the key
    [signed], and it is of the closed kind set exactly when the payload
    is. *)
Theorem make_signable_shape (object : pyval) :
  has_signed (make_signable object) = true /\
  closed_kind (make_signable object) = closed_kind object.
Proof.
  rewrite make_signable_cases.
  destruct (has_signed object) eqn:H; [now split |].
  split; [reflexivity |].
  cbn [closed_kind forallb fst snd signed_key signatures_key is_str_key].
  now rewrite !andb_true_r.
Qed.

(** X9 -- The encoding of a fresh envelope.  For an encodable payload
    that is not an envelope yet, the encoding of what [make_signable]
    returns is the mapping with the key [signatures] first, holding the
    empty list, and the key [signed] second, holding the encoding of the
    payload. *)
Theorem signable_encoding (object : pyval) :
  closed_kind object = true ->
  has_signed object = false ->
  run_buffered (make_signable object)
  = Return (Some (lit "{" ++ quoted "signatures" ++ lit ":[],"
                  ++ quoted "signed" ++ lit ":" ++ text_of object
                  ++ lit "}")).
Proof.
  intros Hc Hs. rewrite make_signable_cases, Hs.
  assert (Hc' : closed_kind
                  (PDict [(signed_key, object); (signatures_key, PList [])])
                = true).
  { cbn [closed_kind forallb fst snd signed_key signatures_key is_str_key].
    now rewrite Hc. }
  rewrite (run_buffered_closed _ Hc').
  rewrite (@dict_text _ [(signatures_key, PList []); (signed_key, object)]
             Hc' eq_refl).
  reflexivity.
Qed.

Lemma signable_encoding_witness :
  closed_kind sample_role = true /\
  has_signed sample_role = false /\
  run_buffered (make_signable sample_role)
  = Return (Some (lit "{" ++ quoted "signatures" ++ lit ":[],"
                  ++ quoted "signed" ++ lit ":" ++ text_of sample_role
                  ++ lit "}")).
Proof.
  split; [reflexivity |]. split; [reflexivity |].
  apply (signable_encoding sample_role); reflexivity.
Defined.

(* ================================================================== *)
(** ** Different values have different encodings *)

Lemma join_close cl (parts : list pystr) r :
  join_with (lit ",") parts ++ cl :: r = close_with cl parts r.
Proof.
  induction parts as [| p parts IH]; [reflexivity |].
  destruct parts as [| q parts].
  - reflexivity.
  - cbn [join_with close_with]. rewrite <- !app_assoc. f_equal.
    cbn [lit list_ascii_of_string map app]. f_equal. exact IH.
Qed.

Lemma bracket_close (op cl : N) (parts : list pystr) r :
  ([op] ++ join_with (lit ",") parts ++ [cl]) ++ r
  = op :: close_with cl parts r.
Proof.
  cbn [app]. f_equal. rewrite <- app_assoc. apply join_close.
Qed.

(** Lists of parts closed by [cl] are read back part by part. *)
Lemma close_with_inj A B (f : A -> pystr) (g : B -> pystr)
    (R : A -> B -> Prop) (cl : N) (l : list A) :
  forall (l' : list B) r r',
    cl <> 44%N ->
    num_char cl = false ->
    (forall a, In a l -> forall s, exists c rest,
        f a ++ s = c :: rest /\ c <> cl) ->
    (forall b, In b l' -> forall s, exists c rest,
        g b ++ s = c :: rest /\ c <> cl) ->
    (forall a b, In a l -> In b l' -> forall s s',
        follow s -> follow s' -> f a ++ s = g b ++ s' -> R a b /\ s = s') ->
    close_with cl (map f l) r = close_with cl (map g l') r' ->
    Forall2 R l l' /\ r = r'.
Proof.
  induction l as [| a l IH]; intros [| b l'] r r' Hcl Hnum Hf Hg Hinj.
  - cbn. intros H. injection H as ->. split; [constructor | reflexivity].
  - cbn [map close_with]. intros H. exfalso.
    destruct (Hg b (or_introl eq_refl)
                (match map g l' with
                 | [] => cl :: r'
                 | _ :: _ => 44%N :: close_with cl (map g l') r'
                 end)) as [c [rest [E Hc]]].
    rewrite E in H. injection H as H _. now apply Hc.
  - cbn [map close_with]. intros H. exfalso.
    destruct (Hf a (or_introl eq_refl)
                (match map f l with
                 | [] => cl :: r
                 | _ :: _ => 44%N :: close_with cl (map f l) r
                 end)) as [c [rest [E Hc]]].
    rewrite E in H. injection H as H _. now apply Hc.
  - cbn [map close_with]. intros H.
    apply Hinj in H; try (now left).
    + destruct H as [Hab H].
      destruct l as [| a2 l], l' as [| b2 l']; cbn [map] in H.
      * injection H as ->. split; [repeat constructor; exact Hab | easy].
      * injection H as H _. now contradiction Hcl.
      * injection H as H _. now contradiction Hcl.
      * injection H as H.
        destruct (IH (b2 :: l') r r') as [HF Hr]; try assumption.
        -- intros x Hx. apply Hf. now right.
        -- intros x Hx. apply Hg. now right.
        -- intros x y Hx Hy. apply Hinj; now right.
        -- split; [constructor; assumption | exact Hr].
    + destruct (map f l); [exact Hnum | reflexivity].
    + destruct (map g l'); [exact Hnum | reflexivity].
Qed.

Lemma string_text_prefix s s' r r' :
  string_text s ++ r = string_text s' ++ r' -> s = s' /\ r = r'.
Proof.
  unfold string_text. rewrite <- !app_assoc. cbn [app].
  intros H. injection H as H. revert s' H.
  induction s as [| c s IH]; intros [| c' s']; cbn [flat_map app].
  - intros H. injection H as ->. now split.
  - destruct (escape_char_cases c') as [[-> _] | [-> [Hq _]]];
      cbn [app]; intros H; injection H as H; try discriminate.
    now contradiction Hq.
  - destruct (escape_char_cases c) as [[-> _] | [-> [Hq _]]];
      cbn [app]; intros H; injection H as H; try discriminate.
    now contradiction Hq.
  - rewrite <- !app_assoc.
    destruct (escape_char_cases c) as [[-> Hc] | [-> [Hq Hb]]],
      (escape_char_cases c') as [[-> Hc'] | [-> [Hq' Hb']]];
      cbn [app]; intros H.
    + injection H as -> H. destruct (IH _ H) as [-> ->]. now split.
    + injection H as <- H. now contradiction Hb'.
    + injection H as -> H. now contradiction Hb.
    + injection H as -> H. destruct (IH _ H) as [-> ->]. now split.
Qed.

Lemma numeral_prefix (a b r r' : pystr) :
  forallb num_char a = true ->
  forallb num_char b = true ->
  follow r -> follow r' ->
  a ++ r = b ++ r' -> a = b /\ r = r'.
Proof.
  revert b. induction a as [| x a IH]; intros [| y b] Ha Hb Hr Hr';
    cbn [app]; intros H.
  - now split.
  - subst r. cbn [forallb] in Hb. apply andb_true_iff in Hb.
    simpl in Hr. destruct Hb as [Hy _]. congruence.
  - subst r'. cbn [forallb] in Ha. apply andb_true_iff in Ha.
    simpl in Hr'. destruct Ha as [Hx _]. congruence.
  - injection H as -> H. cbn [forallb] in Ha, Hb.
    apply andb_true_iff in Ha, Hb.
    assert (E : a = b /\ r = r') by (apply IH; tauto).
    destruct E as [-> ->]. now split.
Qed.

Lemma str_int_num n : forallb num_char (str_int n) = true.
Proof.
  assert (Hg : forall p, forallb num_char (uint_chars (Pos.to_uint p))
                         = true).
  { intros p. apply forallb_forall. intros c Hc.
    pose proof (uint_chars_digits (Pos.to_uint p)) as G.
    rewrite forallb_forall in G. unfold num_char. now rewrite (G c Hc). }
  destruct n as [| p | p]; rewrite ?str_int_pos, ?str_int_neg.
  - reflexivity.
  - apply Hg.
  - cbn [lit list_ascii_of_string map app forallb]. now rewrite Hg.
Qed.

Lemma num_char_tag c : num_char c = true -> char_tag c = 5.
Proof.
  unfold char_tag, num_char, is_digit. intros H.
  destruct (N.eqb_spec c 34), (N.eqb_spec c 116), (N.eqb_spec c 102),
    (N.eqb_spec c 110); subst; try discriminate.
  unfold num_char, is_digit. now rewrite H.
Qed.

(** The first character of the text of a value tells its kind. *)
Lemma value_head v s :
  closed_kind v = true ->
  exists c rest,
    text_of v ++ s = c :: rest /\ char_tag c = tag v /\ tag v <> 0.
Proof.
  intros Hc. destruct v as [x | [|] | | n | f | l | l | d | c0];
    try discriminate.
  - rewrite text_of_str. now eexists _, _.
  - now eexists _, _.
  - now eexists _, _.
  - now eexists _, _.
  - rewrite text_of_int. pose proof (str_int_num n) as Hn.
    destruct (str_int n) as [| c rest] eqn:E.
    + destruct n as [| p | p]; rewrite ?str_int_pos, ?str_int_neg in E;
        try discriminate.
      now apply (proj1 (pos_digits p)) in E.
    + cbn [forallb] in Hn. apply andb_true_iff in Hn.
      exists c, (rest ++ s). split; [reflexivity |].
      split; [now apply num_char_tag | discriminate].
  - rewrite list_text by exact Hc. now eexists _, _.
  - rewrite tuple_text by exact Hc. now eexists _, _.
  - destruct (@sorted_return _ d) as [items Hs].
    { apply closed_dict in Hc. eapply Forall_impl; [| exact Hc].
      now intros kv [Hk _]. }
    rewrite (@dict_text d items Hc Hs). now eexists _, _.
Qed.

Lemma value_head_not c0 v s :
  char_tag c0 = 0 ->
  closed_kind v = true ->
  exists c rest, text_of v ++ s = c :: rest /\ c <> c0.
Proof.
  intros H0 Hc. destruct (value_head v s Hc) as [c [rest [E [Ht Hn]]]].
  exists c, rest. split; [exact E |]. intros ->. congruence.
Qed.

Lemma entry_text_prefix (kv kv' : pykey * pyval) s s' :
  is_str_key (fst kv) = true ->
  is_str_key (fst kv') = true ->
  entry_text kv ++ s = entry_text kv' ++ s' ->
  fst kv = fst kv' /\ text_of (snd kv) ++ s = text_of (snd kv') ++ s'.
Proof.
  intros Hk Hk'. unfold entry_text. rewrite <- !app_assoc. intros H.
  apply string_text_prefix in H. destruct H as [Hkey H].
  cbn [lit list_ascii_of_string map app] in H. injection H as H.
  split; [now apply key_text_inj | exact H].
Qed.

Lemma entry_head (kv : pykey * pyval) s :
  exists c rest, entry_text kv ++ s = c :: rest /\ c <> 125%N.
Proof.
  unfold entry_text, string_text. eexists _, _.
  split; [reflexivity | discriminate].
Qed.

Lemma values_read_back v :
  closed_kind v = true ->
  forall v' r r',
    closed_kind v' = true ->
    follow r -> follow r' ->
    text_of v ++ r = text_of v' ++ r' ->
    same_content v v' /\ r = r'.
Proof.
  induction v as [s | b | | n | f | l IH | l IH | d IH | c0]
    using pyval_induction; intros Hc v' r r' Hc' Hr Hr' H;
    try discriminate.
  all: match goal with
       | |- same_content ?v _ /\ _ =>
           assert (Htag : tag v' = tag v)
             by (destruct (value_head v r Hc) as [c1 [r1 [E1 [T1 _]]]],
                   (value_head v' r' Hc') as [c2 [r2 [E2 [T2 _]]]];
                 rewrite E1, E2 in H; injection H as -> _; congruence)
       end.
  - (* str *)
    destruct v' as [s' | [|] | | | | | | |]; try discriminate.
    rewrite !text_of_str in H. apply string_text_prefix in H.
    destruct H as [-> ->]. split; [constructor | reflexivity].
  - (* bool *)
    destruct b, v' as [| [|] | | | | | | |]; try discriminate;
      apply app_inv_head in H; (split; [constructor | exact H]).
  - (* None *)
    destruct v' as [| [|] | | | | | | |]; try discriminate.
    apply app_inv_head in H. split; [constructor | exact H].
  - (* int *)
    destruct v' as [| [|] | | m | | | | |]; try discriminate.
    rewrite !text_of_int in H.
    apply numeral_prefix in H; auto using str_int_num.
    destruct H as [H ->]. apply str_int_injective in H. subst m.
    split; [constructor | reflexivity].
  - (* list *)
    assert (exists l', seq_items v' = Some l' /\
              forallb closed_kind l' = true /\
              text_of v'
              = [91%N] ++ join_with (lit ",") (map text_of l') ++ [93%N])
      as [l' [Hl' [Hcl' Ht']]].
    { destruct v' as [| [|] | | | | l' | l' | |]; try discriminate;
        exists l'; (split; [reflexivity |]); (split; [exact Hc' |]).
      - now apply list_text.
      - now apply tuple_text. }
    rewrite Ht' in H. rewrite (list_text _ Hc) in H.
    change (lit "[") with [91%N] in H. change (lit "]") with [93%N] in H.
    rewrite !bracket_close in H. injection H as H.
    apply closed_elements in Hc. apply closed_elements in Hcl'.
    rewrite Forall_forall in IH, Hc, Hcl'.
    apply (close_with_inj text_of text_of same_content) in H;
      try easy.
    + destruct H as [HF ->]. split; [| reflexivity].
      now apply same_seq with l l'.
    + intros a Ha s0. apply value_head_not; auto.
    + intros b Hb s0. apply value_head_not; auto.
    + intros a b Ha Hb s0 s0' Hs0 Hs0' E.
      now apply (IH a Ha (Hc a Ha) b s0 s0' (Hcl' b Hb)).
  - (* tuple *)
    assert (exists l', seq_items v' = Some l' /\
              forallb closed_kind l' = true /\
              text_of v'
              = [91%N] ++ join_with (lit ",") (map text_of l') ++ [93%N])
      as [l' [Hl' [Hcl' Ht']]].
    { destruct v' as [| [|] | | | | l' | l' | |]; try discriminate;
        exists l'; (split; [reflexivity |]); (split; [exact Hc' |]).
      - now apply list_text.
      - now apply tuple_text. }
    rewrite Ht' in H. rewrite (tuple_text _ Hc) in H.
    change (lit "[") with [91%N] in H. change (lit "]") with [93%N] in H.
    rewrite !bracket_close in H. injection H as H.
    apply closed_elements in Hc. apply closed_elements in Hcl'.
    rewrite Forall_forall in IH, Hc, Hcl'.
    apply (close_with_inj text_of text_of same_content) in H;
      try easy.
    + destruct H as [HF ->]. split; [| reflexivity].
      now apply same_seq with l l'.
    + intros a Ha s0. apply value_head_not; auto.
    + intros b Hb s0. apply value_head_not; auto.
    + intros a b Ha Hb s0 s0' Hs0 Hs0' E.
      now apply (IH a Ha (Hc a Ha) b s0 s0' (Hcl' b Hb)).
  - (* dict *)
    destruct v' as [| [|] | | | | | | d' |]; try discriminate.
    pose proof (proj1 (closed_dict d) Hc) as Hd.
    pose proof (proj1 (closed_dict d') Hc') as Hd'.
    destruct (@sorted_return _ d) as [items Hs].
    { eapply Forall_impl; [| exact Hd]. now intros kv [Hk _]. }
    destruct (@sorted_return _ d') as [items' Hs'].
    { eapply Forall_impl; [| exact Hd']. now intros kv [Hk _]. }
    pose proof (sorted_permutation _ Hs) as Hp.
    pose proof (sorted_permutation _ Hs') as Hp'.
    rewrite (@dict_text d items Hc Hs), (@dict_text d' items' Hc' Hs') in H.
    change (lit "{") with [123%N] in H. change (lit "}") with [125%N] in H.
    rewrite !bracket_close in H. injection H as H.
    apply (Permutation_Forall Hp) in Hd.
    apply (Permutation_Forall Hp) in IH.
    apply (Permutation_Forall Hp') in Hd'.
    rewrite Forall_forall in IH, Hd, Hd'.
    apply (close_with_inj entry_text entry_text (same_key same_content))
      in H; try easy.
    + destruct H as [HF ->]. split; [| reflexivity].
      apply same_dict with items items'; auto using Permutation_sym.
    + intros a Ha s0. apply entry_head.
    + intros b Hb s0. apply entry_head.
    + intros a b Ha Hb s0 s0' Hs0 Hs0' E.
      destruct (Hd a Ha) as [Hka Hva], (Hd' b Hb) as [Hkb Hvb].
      apply entry_text_prefix in E; try assumption.
      destruct E as [Hk E].
      destruct (IH a Ha Hva (snd b) s0 s0' Hvb Hs0 Hs0' E) as [Hsc ->].
      split; [split; assumption | reflexivity].
Qed.

(** X10 -- Values are told apart.  Two encodable values with the same
    encoding have the same content: they differ at most in lists being
    tuples and in the order of insertion of the items of their
    dictionaries. *)
Theorem encoding_injective (v v' : pyval) :
  closed_kind v = true ->
  closed_kind v' = true ->
  run_buffered v = run_buffered v' ->
  same_content v v'.
Proof.
  intros Hc Hc' H. rewrite !run_buffered_closed in H by assumption.
  injection H as H.
  destruct (@values_read_back v Hc v' [] [] Hc' I I) as [Hs _].
  - now rewrite !app_nil_r.
  - exact Hs.
Qed.

Lemma encoding_injective_witness :
  closed_kind (PList [PInt 1; inner_xy]) = true /\
  closed_kind (PTuple [PInt 1; inner_yx]) = true /\
  run_buffered (PList [PInt 1; inner_xy])
  = run_buffered (PTuple [PInt 1; inner_yx]) /\
  same_content (PList [PInt 1; inner_xy]) (PTuple [PInt 1; inner_yx]).
Proof.
  split; [reflexivity |]. split; [reflexivity |]. split; [reflexivity |].
  apply (@encoding_injective (PList [PInt 1; inner_xy])
                             (PTuple [PInt 1; inner_yx])); reflexivity.
Defined.

(** The other way round: values with the same content are encoded the
    same. *)
Lemma same_content_text v :
  forall v',
    same_content v v' ->
    closed_kind v = true ->
    unique_keys v ->
    text_of v' = text_of v /\ closed_kind v' = true.
Proof.
  induction v as [s | b | | n | f | l IH | l IH | d IH | c]
    using pyval_induction; intros v' Hsc Hc Hu;
    inversion Hsc as [? | ? | | ? | ? ? l0 l' Hl Hl' HF
                      | ? d' items items' Hp HF Hp']; subst;
    try discriminate; try (split; [reflexivity | exact Hc]).
  - (* list *)
    injection Hl as <-.
    cbn [unique_keys] in Hu. apply unique_keys_elements in Hu.
    pose proof (closed_elements _ Hc) as Hce.
    assert (Hall : Forall2 (fun x y => text_of y = text_of x /\
                                       closed_kind y = true) l l').
    { clear - IH HF Hce Hu. induction HF as [| x y l l' Hxy HF IHF];
        [constructor |].
      inversion IH; inversion Hce; inversion Hu; subst.
      constructor; auto. }
    assert (Hc' : forallb closed_kind l' = true).
    { apply forallb_forall. clear - Hall.
      induction Hall as [| x y l l' [_ Hy] _ IHa]; intros z [];
        subst; auto. }
    assert (Hm : map text_of l' = map text_of l).
    { clear - Hall.
      induction Hall as [| x y l l' [Hy _] _ IHa]; simpl; congruence. }
    destruct v' as [| | | | | l1 | l1 | |]; try discriminate;
      injection Hl' as ->; (split; [| exact Hc']).
    + now rewrite (list_text _ Hc'), (list_text _ Hc), Hm.
    + now rewrite (tuple_text _ Hc'), (list_text _ Hc), Hm.
  - (* tuple *)
    injection Hl as <-.
    cbn [unique_keys] in Hu. apply unique_keys_elements in Hu.
    pose proof (closed_elements _ Hc) as Hce.
    assert (Hall : Forall2 (fun x y => text_of y = text_of x /\
                                       closed_kind y = true) l l').
    { clear - IH HF Hce Hu. induction HF as [| x y l l' Hxy HF IHF];
        [constructor |].
      inversion IH; inversion Hce; inversion Hu; subst.
      constructor; auto. }
    assert (Hc' : forallb closed_kind l' = true).
    { apply forallb_forall. clear - Hall.
      induction Hall as [| x y l l' [_ Hy] _ IHa]; intros z [];
        subst; auto. }
    assert (Hm : map text_of l' = map text_of l).
    { clear - Hall.
      induction Hall as [| x y l l' [Hy _] _ IHa]; simpl; congruence. }
    destruct v' as [| | | | | l1 | l1 | |]; try discriminate;
      injection Hl' as ->; (split; [| exact Hc']).
    + now rewrite (list_text _ Hc'), (tuple_text _ Hc), Hm.
    + now rewrite (tuple_text _ Hc'), (tuple_text _ Hc), Hm.
  - (* dict *)
    cbn [unique_keys] in Hu. destruct Hu as [Hnd Hu].
    apply unique_keys_values in Hu.
    pose proof (proj1 (closed_dict d) Hc) as Hcd.
    apply (Permutation_Forall Hp) in IH.
    apply (Permutation_Forall Hp) in Hu.
    pose proof (Permutation_Forall Hp Hcd) as Hci.
    assert (Hall : Forall2 (fun x y => fst x = fst y /\
                     text_of (snd y) = text_of (snd x) /\
                     closed_kind (snd y) = true) items items').
    { clear - IH HF Hci Hu.
      induction HF as [| x y l l' [Hk Hxy] HF IHF]; [constructor |].
      inversion IH; inversion Hci as [| ? ? [? ?] ?]; inversion Hu; subst.
      constructor; auto. }
    assert (Hci' : Forall (fun kv => is_str_key (fst kv) = true /\
                                     closed_kind (snd kv) = true) items').
    { clear - Hall Hci.
      induction Hall as [| x y l l' [Hk [_ Hy]] _ IHa]; [constructor |].
      inversion Hci as [| ? ? [Hkx _] ?]; subst.
      constructor; [split; [now rewrite <- Hk | exact Hy] | auto]. }
    assert (Hc' : closed_kind (PDict d') = true).
    { apply closed_dict. now apply (Permutation_Forall Hp'). }
    split; [| exact Hc'].
    assert (Hk : forall l0 : list (pykey * pyval),
               Forall (fun kv => is_str_key (fst kv) = true /\
                                 closed_kind (snd kv) = true) l0 ->
               Forall (fun kv => is_str_key (fst kv) = true) l0).
    { intros l0 H0. eapply Forall_impl; [| exact H0].
      now intros kv [Hkv _]. }
    destruct (@sorted_return _ items (Hk _ Hci)) as [S Hs].
    destruct (@sorted_return _ items' (Hk _ Hci')) as [S1 Hs1].
    assert (Hstrict : forall (l0 S0 : list (pykey * pyval)),
               Forall (fun kv => is_str_key (fst kv) = true) l0 ->
               NoDup (map fst l0) ->
               sorted l0 = Return S0 ->
               StronglySorted before S0).
    { intros l0 S0 Hk0 Hn0 Hs0. apply strictly_sorted.
      - exact (Permutation_Forall (sorted_permutation _ Hs0) Hk0).
      - eapply Permutation_NoDup;
          [apply Permutation_map, sorted_permutation, Hs0 | exact Hn0].
      - now apply sorted_sorted with l0. }
    assert (Hni : NoDup (map fst items)).
    { eapply Permutation_NoDup; [apply Permutation_map, Hp | exact Hnd]. }
    assert (Hni' : NoDup (map fst items')).
    { now rewrite <- (same_keys HF). }
    assert (Hsd : sorted d = Return S).
    { apply sorted_finds.
      - exact (Hk _ Hcd).
      - apply perm_trans with items; [exact Hp |].
        now apply sorted_permutation.
      - exact (Hstrict items S (Hk _ Hci) Hni Hs). }
    assert (Hsd' : sorted d' = Return S1).
    { apply sorted_finds.
      - exact (Hk _ (Permutation_Forall Hp' Hci')).
      - apply perm_trans with items'; [now apply Permutation_sym |].
        now apply sorted_permutation.
      - exact (Hstrict items' S1 (Hk _ Hci') Hni' Hs1). }
    rewrite (@dict_text d' S1 Hc' Hsd'), (@dict_text d S Hc Hsd).
    do 3 f_equal.
    pose proof (@sorted_related _ _
                  (fun a b => text_of b = text_of a /\ closed_kind b = true)
                  items items' Hall) as Hrel.
    rewrite Hs, Hs1 in Hrel. cbn in Hrel. clear - Hrel.
    induction Hrel as [| x y l l' [Hk [Ht _]] _ IHa]; simpl;
      [reflexivity |].
    unfold entry_text at 1 3. now rewrite Hk, Ht, IHa.
Qed.

(** X11 -- Same content, same encoding.  Two values with the same
    content (lists or tuples of the same elements, dictionaries of the
    same items in any order), the first encodable and with distinct keys
    in each dictionary, have the same encoding. *)
Theorem same_content_same_encoding (v v' : pyval) :
  same_content v v' ->
  closed_kind v = true ->
  unique_keys v ->
  run_buffered v' = run_buffered v.
Proof.
  intros Hs Hc Hu.
  destruct (same_content_text Hs Hc Hu) as [Ht Hc'].
  now rewrite (run_buffered_closed _ Hc'), (run_buffered_closed _ Hc), Ht.
Qed.

Lemma same_content_same_encoding_witness :
  same_content (PList [PInt 1; inner_xy]) (PTuple [PInt 1; inner_yx]) /\
  closed_kind (PList [PInt 1; inner_xy]) = true /\
  unique_keys (PList [PInt 1; inner_xy]) /\
  run_buffered (PTuple [PInt 1; inner_yx])
  = run_buffered (PList [PInt 1; inner_xy]).
Proof.
  assert (Hin : same_content inner_xy inner_yx).
  { apply same_dict
      with [(KStr (lit "x"), PInt 1); (KStr (lit "y"), PInt 2)]
           [(KStr (lit "x"), PInt 1); (KStr (lit "y"), PInt 2)].
    - apply Permutation_refl.
    - repeat constructor.
    - apply perm_swap. }
  assert (Hs : same_content (PList [PInt 1; inner_xy])
                            (PTuple [PInt 1; inner_yx])).
  { apply same_seq with [PInt 1; inner_xy] [PInt 1; inner_yx];
      try reflexivity.
    constructor; [constructor |]. constructor; [exact Hin | constructor]. }
  assert (Hu : unique_keys (PList [PInt 1; inner_xy])).
  { simpl. repeat split; repeat constructor; simpl; intuition discriminate. }
  split; [exact Hs |]. split; [reflexivity |]. split; [exact Hu |].
  exact (same_content_same_encoding Hs eq_refl Hu).
Defined.

(* ================================================================== *)
(** ** Objects that contain themselves *)

Section EmitsAt.
Variables (W : Type) (write : pystr -> W -> W) (mem : memory).

Lemma encoder_at_emits limit :
  forall address,
    emits write (_encode_canonical_at (sink write) mem limit address)
          (trace_at mem limit address).
Proof.
  induction limit as [| limit IH]; intros address.
  - apply emits_raise.
  - cbn [_encode_canonical_at trace_at].
    destruct (mem address) as [s | [|] | | n | f | l | l | d | c].
    + apply emits_lift.
      * intros k Hk. simpl in Hk. injection Hk as <-. apply emits_sink.
      * intros e He. discriminate.
    + apply emits_sink.
    + apply emits_sink.
    + apply emits_sink.
    + apply emits_sink.
    + apply emits_raise.
    + apply emits_sequence.
      induction l as [| a l IHl]; constructor; [apply IH | exact IHl].
    + apply emits_sequence.
      induction l as [| a l IHl]; constructor; [apply IH | exact IHl].
    + apply emits_mapping.
      induction d as [| kv d IHd]; constructor; [| exact IHd].
      split; [reflexivity | apply IH].
    + apply emits_raise.
Qed.
End EmitsAt.

(** On a finite tree, and with the limit above its height, the encoder
    on memory does what the encoder on the tree does. *)
Lemma trace_at_tree mem v :
  forall address limit,
    lies_at mem address v ->
    height v <= limit ->
    trace_at mem limit address = trace_of v.
Proof.
  induction v as [s | b | | n | f | l IH | l IH | d IH | c]
    using pyval_induction; intros address limit Hl Hh;
    (destruct limit as [| limit]; [simpl in Hh; lia |]);
    inversion Hl; subst; cbn [trace_at trace_of];
    match goal with E : mem _ = _ |- _ => rewrite E; clear E end;
    try reflexivity.
  - f_equal. cbn [height] in Hh. apply le_S_n in Hh. clear Hl.
    match goal with HF : Forall2 _ _ _ |- _ =>
      induction HF as [| r x refs l Hrx HF IHF] end; [reflexivity |].
    inversion IH as [| ? ? Hx Hrest]; subst. cbn [fold_right] in Hh.
    cbn [map]. f_equal; [apply Hx; [exact Hrx | lia] |].
    apply IHF; [exact Hrest | lia].
  - f_equal. cbn [height] in Hh. apply le_S_n in Hh. clear Hl.
    match goal with HF : Forall2 _ _ _ |- _ =>
      induction HF as [| r x refs l Hrx HF IHF] end; [reflexivity |].
    inversion IH as [| ? ? Hx Hrest]; subst. cbn [fold_right] in Hh.
    cbn [map]. f_equal; [apply Hx; [exact Hrx | lia] |].
    apply IHF; [exact Hrest | lia].
  - f_equal. cbn [height] in Hh. apply le_S_n in Hh. clear Hl.
    match goal with HF : Forall2 _ _ _ |- _ =>
      induction HF as [| r x refs d [Hk Hrx] HF IHF] end; [reflexivity |].
    inversion IH as [| ? ? Hx Hrest]; subst. cbn [fold_right] in Hh.
    cbn [map]. f_equal.
    + rewrite Hk. f_equal. apply Hx; [exact Hrx | lia].
    + apply IHF; [exact Hrest | lia].
Qed.

Lemma leaf_trace mem limit address :
  is_leaf (mem address) = true ->
  snd (trace_at mem (S limit) address) = Return tt.
Proof.
  cbn [trace_at]. destruct (mem address) as [s | [|] | | n | | | | |];
    try discriminate; reflexivity.
Qed.

Lemma self_containing_trace mem address pre post :
  mem address = OList (pre ++ address :: post) ->
  forallb (fun a => is_leaf (mem a)) pre = true ->
  forall limit, snd (trace_at mem limit address) = Raise recursion_error.
Proof.
  intros Hm Hpre limit. induction limit as [| limit IH]; [reflexivity |].
  cbn [trace_at]. rewrite Hm, sequence_ending, map_app. cbn [map].
  destruct limit as [| limit].
  - destruct pre as [| p pre]; cbn [map app trace_at];
      now rewrite joined_head_fails with (e := recursion_error).
  - rewrite (@joined_first_failure _ _ _ recursion_error).
    + reflexivity.
    + apply Forall_map, Forall_forall. intros a Ha.
      rewrite forallb_forall in Hpre. now apply leaf_trace, Hpre.
    + exact IH.
Qed.

(** X12 -- A list that contains itself.  Let a list hold itself as an
    item, after items that are strings, integers, booleans or [None].
    Whatever number of nested calls the interpreter allows, the encode
    through a storing callable ends in the recursion error of the
    interpreter, never in a [FormatError] and never in a returned value;
    the handler of [encode_canonical], which catches [TypeError] and
    [FormatError] only, lets it pass. *)
Theorem self_containing_list (W : Type) (write : pystr -> W -> W)
    (mem : memory) (address : nat) (pre post : list nat) :
  mem address = OList (pre ++ address :: post) ->
  forallb (fun a => is_leaf (mem a)) pre = true ->
  forall (limit : nat) (handler : exn -> M W unit) (w : W),
    snd (try_except (_encode_canonical_at (sink write) mem limit address)
                    handler w)
    = Raise recursion_error.
Proof.
  intros Hm Hpre limit handler w. unfold try_except.
  rewrite (encoder_at_emits write mem limit address w).
  now rewrite (self_containing_trace mem address pre post Hm Hpre limit).
Qed.

Lemma self_containing_list_witness :
  self_list 0 = OList ([1] ++ 0 :: []) /\
  forallb (fun a => is_leaf (self_list a)) [1] = true /\
  forall (limit : nat) (handler : exn -> M (list pystr) unit)
         (w : list pystr),
    snd (try_except
           (_encode_canonical_at (sink append_write) self_list limit 0)
           handler w)
    = Raise recursion_error.
Proof.
  split; [reflexivity |]. split; [reflexivity |].
  apply (@self_containing_list (list pystr) append_write self_list 0
           [1] []); reflexivity.
Defined.
